(** * Table merging and row pagination: a shallow embedding

    This development models the merge engine (TableMergePlus.ts) and the
    row overflow engine (the TableRowOverflow plugin with merge-back and
    chain cleanup) over a structural model of the editor document.

    Conventions of the embedding.

    - The host document is a tree.  An integer position of the host is
      represented by the structural address it resolves to: a row by its
      index among the rows of the document in document order, a cell by
      its index in its row, a block boundary or a caret inside a cell by
      its integer offset from the start of the cell content, computed with
      the host's node sizes.
    - The host transaction builder is used only on aligned ranges; its
      steps are modelled by their effect on the tree.  Deleting every
      block of a cell leaves the schema filler (one empty paragraph),
      since a cell requires at least one block.
    - Layout measurements come from the geometry provider and are inputs.
    - Identifiers returned by [newId] are inputs of the step that asks
      for them. *)

From stdpp Require Import base option list strings.
From Stdlib Require Import Ascii ZArith QArith Lia.

Set Warnings "-register-all".

(** ** Strings as the source uses them *)

Module Js.

Definition isSpace (a : ascii) : bool :=
  bool_decide (a ∈ [" "; "009"; "010"; "011"; "012"; "013"]%char).

Fixpoint trimStart (s : string) : string :=
  match s with
  | EmptyString => EmptyString
  | String a s' => if isSpace a then trimStart s' else s
  end.

Fixpoint trimEnd (s : string) : string :=
  match s with
  | EmptyString => EmptyString
  | String a s' =>
      match trimEnd s' with
      | EmptyString => if isSpace a then EmptyString else String a EmptyString
      | t => String a t
      end
  end.

(** [String.prototype.trim] on the whitespace of the ASCII range. *)
Definition trim (s : string) : string := trimEnd (trimStart s).

Definition isEmpty (s : string) : bool :=
  match s with EmptyString => true | _ => false end.

(** Truthiness of a nullable string attribute. *)
Definition truthy (v : option string) : bool :=
  match v with
  | Some s => negb (isEmpty s)
  | None => false
  end.

(** [asStringOrNull]: null stays null, a string is trimmed and an empty
    result becomes null. *)
Definition asStringOrNull (v : option string) : option string :=
  match v with
  | None => None
  | Some s => let t := trim s in if isEmpty t then None else Some t
  end.

(** [clamp(n, min, max) = Math.max(min, Math.min(max, n))]. *)
Definition clamp (n lo hi : Z) : Z := Z.max lo (Z.min hi n).

End Js.

(** ** Content of a cell *)

(** Inline content of a text block: text nodes and inline leaves (hard
    breaks, images, mentions).  Marks are not modelled. *)
Inductive Inline :=
| IText (s : string)
| ILeaf (name : string).

(** A block: a text block (paragraph, heading) with its attributes and
    inline content, a block leaf (horizontal rule), or a block with block
    content (list, quote). *)
Inductive Block :=
| BText (name : string) (attrs : string) (body : list Inline)
| BLeaf (name : string)
| BNode (name : string) (kids : list Block).

Definition PARAGRAPH : string := "paragraph".
Definition HARD_BREAK : string := "hardBreak".

Definition inlineSize (i : Inline) : nat :=
  match i with
  | IText s => String.length s
  | ILeaf _ => 1
  end.

Definition inlineText (i : Inline) : string :=
  match i with
  | IText s => s
  | ILeaf _ => ""
  end.

Definition inlinesSize (l : list Inline) : nat := sum_list (inlineSize <$> l).
Definition inlinesText (l : list Inline) : string :=
  foldr (λ i acc, inlineText i +:+ acc) "" l.

Fixpoint nodeSize (b : Block) : nat :=
  match b with
  | BText _ _ body => 2 + inlinesSize body
  | BLeaf _ => 1
  | BNode _ kids => 2 + foldr (λ k acc, nodeSize k + acc)%nat 0%nat kids
  end.

Definition contentSize (bs : list Block) : nat :=
  foldr (λ k acc, nodeSize k + acc)%nat 0%nat bs.

Fixpoint textContent (b : Block) : string :=
  match b with
  | BText _ _ body => inlinesText body
  | BLeaf _ => ""
  | BNode _ kids => foldr (λ k acc, textContent k +:+ acc) "" kids
  end.

Definition blocksText (bs : list Block) : string :=
  foldr (λ k acc, textContent k +:+ acc) "" bs.

Definition isTextblock (b : Block) : bool :=
  match b with BText _ _ _ => true | _ => false end.

Definition blockName (b : Block) : string :=
  match b with
  | BText n _ _ => n
  | BLeaf n => n
  | BNode n _ => n
  end.

(** [block.content.size]: zero for a leaf. *)
Definition blockContentSize (b : Block) : nat :=
  match b with
  | BText _ _ body => inlinesSize body
  | BLeaf _ => 0
  | BNode _ kids => contentSize kids
  end.

Definition isInlineLeaf (i : Inline) : bool :=
  match i with ILeaf _ => true | IText _ => false end.

(** The [descendants] scan of the row engine: does a block hold an inline
    node that is not text? *)
Fixpoint hasInlineNonText (b : Block) : bool :=
  match b with
  | BText _ _ body => existsb isInlineLeaf body
  | BLeaf _ => false
  | BNode _ kids => existsb hasInlineNonText kids
  end.

Definition isBlank (s : string) : bool := Js.isEmpty (Js.trim s).

Definition emptyParagraph (defaults : string → string) : Block :=
  BText PARAGRAPH (defaults PARAGRAPH) [].

(** ** Cells, rows, tables and the document *)

Inductive HideMode := HideNone | HideHidden.
Inductive CellKind := TableCell | TableHeader.

Record Cell := mkCell {
  cellKind : CellKind;
  rmCellId : option string;
  rmMergeOrigin : bool;
  rmMergedTo : option string;
  rmHideMode : option HideMode;
  rmColspan : Z;
  rmRowspan : Z;
  cellContent : list Block;
}.

Record Row := mkRow {
  rmRowId : option string;
  rmLinkedPrev : option string;
  rmLinkedNext : option string;
  textAlign : option string;
  rowCells : list Cell;
}.

(** A table holds rows, directly or inside row groups. *)
Inductive TableChild :=
| ChildRow (r : Row)
| ChildGroup (rs : list Row).

Record Table := mkTable {
  locked : bool;
  tableChildren : list TableChild;
}.

Inductive DocNode :=
| DTable (t : Table)
| DBlock (b : Block).

Abbreviation Doc := (list DocNode).

Definition rowsOfChild (c : TableChild) : list Row :=
  match c with
  | ChildRow r => [r]
  | ChildGroup rs => rs
  end.

Definition rowsOfChildren (cs : list TableChild) : list Row :=
  cs ≫= rowsOfChild.

Definition rowsOfTable (t : Table) : list Row :=
  rowsOfChildren (tableChildren t).

Definition rowsOfNode (n : DocNode) : list Row :=
  match n with
  | DTable t => rowsOfTable t
  | DBlock _ => []
  end.

(** The rows of the document in document order: the order in which
    [doc.descendants] meets them. *)
Definition rowsOfDoc (d : Doc) : list Row := d ≫= rowsOfNode.

(** The table around the row at a given address. *)
Fixpoint tableOfRow (d : Doc) (k : nat) : option Table :=
  match d with
  | [] => None
  | DBlock _ :: d' => tableOfRow d' k
  | DTable t :: d' =>
      let n := length (rowsOfTable t) in
      if decide (k < n)%nat then Some t else tableOfRow d' (k - n)
  end.

(** *** Rewriting rows in place

    One traversal serves every structural step of the transaction
    builder on rows: [f i r] is the list of rows that replaces the row
    [r] found at address [i] (one row for an attribute or content change,
    two for an insertion after it, none for a deletion). *)
Section Splice.
Context (f : nat → Row → list Row).

Fixpoint spliceList (i : nat) (rs : list Row) : list Row :=
  match rs with
  | [] => []
  | r :: rs' => f i r ++ spliceList (S i) rs'
  end.

Definition spliceChild (i : nat) (c : TableChild) : list TableChild :=
  match c with
  | ChildRow r => ChildRow <$> f i r
  | ChildGroup rs => [ChildGroup (spliceList i rs)]
  end.

Fixpoint spliceChildren (i : nat) (cs : list TableChild) : list TableChild :=
  match cs with
  | [] => []
  | c :: cs' =>
      spliceChild i c ++ spliceChildren (i + length (rowsOfChild c)) cs'
  end.

Definition spliceTable (i : nat) (t : Table) : Table :=
  mkTable (locked t) (spliceChildren i (tableChildren t)).

Fixpoint spliceFrom (i : nat) (d : Doc) : Doc :=
  match d with
  | [] => []
  | DTable t :: d' =>
      DTable (spliceTable i t) :: spliceFrom (i + length (rowsOfTable t)) d'
  | DBlock b :: d' => DBlock b :: spliceFrom i d'
  end.

Definition spliceDoc (d : Doc) : Doc := spliceFrom 0 d.
End Splice.

(** [tr.setNodeMarkup] or a content replacement inside the row at [k]. *)
Definition updateRow (k : nat) (g : Row → Row) (d : Doc) : Doc :=
  spliceDoc (λ i r, if decide (i = k) then [g r] else [r]) d.

(** [tr.insert(rowPos + rowNode.nodeSize, newRow)]. *)
Definition insertRowAfter (k : nat) (n : Row) (d : Doc) : Doc :=
  spliceDoc (λ i r, if decide (i = k) then [r; n] else [r]) d.

(** [tr.deleteRange(rowPos, rowPos + rowNode.nodeSize)]. *)
Definition deleteRow (k : nat) (d : Doc) : Doc :=
  spliceDoc (λ i r, if decide (i = k) then [] else [r]) d.

(** [findRowPosById]: the first row in document order whose [rmRowId] is
    identical to [id]. *)
Definition findRowPosById (d : Doc) (id : string) : option nat :=
  fst <$> list_find (λ r, rmRowId r = Some id) (rowsOfDoc d).

(** [doc.nodeAt(rowPos)] for a row address. *)
Definition rowAt (d : Doc) (k : nat) : option Row := rowsOfDoc d !! k.

Definition setRowId (v : option string) (r : Row) : Row :=
  mkRow v (rmLinkedPrev r) (rmLinkedNext r) (textAlign r) (rowCells r).
Definition setLinkedPrev (v : option string) (r : Row) : Row :=
  mkRow (rmRowId r) v (rmLinkedNext r) (textAlign r) (rowCells r).
Definition setLinkedNext (v : option string) (r : Row) : Row :=
  mkRow (rmRowId r) (rmLinkedPrev r) v (textAlign r) (rowCells r).
Definition setRowCells (cs : list Cell) (r : Row) : Row :=
  mkRow (rmRowId r) (rmLinkedPrev r) (rmLinkedNext r) (textAlign r) cs.
Definition setCellContent (bs : list Block) (c : Cell) : Cell :=
  mkCell (cellKind c) (rmCellId c) (rmMergeOrigin c) (rmMergedTo c)
    (rmHideMode c) (rmColspan c) (rmRowspan c) bs.

(** ** Emptiness tests of the row engine *)

(** [isEmptyPlaceholderCell]: exactly one child, a text block, with empty
    content and no text. *)
Definition isEmptyPlaceholderCell (c : Cell) : bool :=
  match cellContent c with
  | [only] =>
      isTextblock only
      && bool_decide (blockContentSize only = 0%nat)
      && Js.isEmpty (textContent only)
  | _ => false
  end.

(** [allChildrenAreEmptyTextblocks]: every child is a text block with
    blank text and without an inline node other than text. *)
Definition allChildrenAreEmptyTextblocks (c : Cell) : bool :=
  forallb (λ ch, isTextblock ch && isBlank (textContent ch)
                 && negb (hasInlineNonText ch)) (cellContent c).

Definition isCellCompletelyEmpty (c : Cell) : bool :=
  if bool_decide (length (cellContent c) = 0%nat) then true
  else if bool_decide (length (cellContent c) = 1%nat) && isEmptyPlaceholderCell c
  then true
  else isBlank (blocksText (cellContent c)) && allChildrenAreEmptyTextblocks c.

Definition isRowCompletelyEmpty (r : Row) : bool :=
  forallb isCellCompletelyEmpty (rowCells r).

(** The test of [getFirstMeaningfulBlockIndex] on one child. *)
Definition isMeaningfulBlock (ch : Block) : bool :=
  if negb (isTextblock ch) then true
  else if negb (isBlank (textContent ch)) then true
  else hasInlineNonText ch.

Definition getFirstMeaningfulBlockIndex (c : Cell) : option nat :=
  fst <$> list_find (λ ch, isMeaningfulBlock ch = true) (cellContent c).

(** ** Emptiness tests of the merge engine *)

(** The leaf test inside [isVisuallyEmptyCell]: a node named [hardBreak]
    or [paragraph] is skipped, any other leaf (a text node included)
    counts as content. *)
Definition inlineNonTrivial (i : Inline) : bool :=
  match i with
  | IText _ => true
  | ILeaf n =>
      negb (bool_decide (n = HARD_BREAK) || bool_decide (n = PARAGRAPH))
  end.

Fixpoint blockNonTrivial (b : Block) : bool :=
  match b with
  | BText _ _ body => existsb inlineNonTrivial body
  | BLeaf n => negb (bool_decide (n = HARD_BREAK) || bool_decide (n = PARAGRAPH))
  | BNode _ kids => existsb blockNonTrivial kids
  end.

Definition isVisuallyEmptyCell (c : Cell) : bool :=
  if negb (isBlank (blocksText (cellContent c))) then false
  else negb (existsb blockNonTrivial (cellContent c)).

(** [meaningfulBlocksFromCell]: the blocks of the cell without the
    paragraphs that have blank text and empty content. *)
Definition isTrivialParagraph (b : Block) : bool :=
  bool_decide (blockName b = PARAGRAPH)
  && isBlank (textContent b)
  && bool_decide (blockContentSize b = 0%nat).

Definition meaningfulBlocksFromCell (c : Cell) : list Block :=
  filter (λ b, isTrivialParagraph b = false) (cellContent c).

(** ** Editor state *)

(** What the engines read of the schema: whether it has a [paragraph]
    node type, and the default attributes of each block type. *)
Record Schema := mkSchema {
  hasParagraph : bool;
  defaultAttrs : string → string;
}.

(** The selection: a cell selection names its table (by its index among
    the nodes of the document) and the grid coordinates (row, column) of
    its anchor and head cells; a text selection names the row and the cell
    that hold the caret. *)
Inductive Selection :=
| CellSelection (table : nat) (anchor head : nat * nat)
| TextSelection (row : nat) (cell : nat)
| NoSelection.

Record EditorState := mkState {
  doc : Doc;
  selection : Selection;
}.

(** A command either throws or returns its success flag together with
    the state after its dispatch.  [OffGrid] marks the runs the grid map
    below does not cover: the selected table has row groups, or the
    anchor or head of the cell selection is not a cell of the table; and,
    for the row commands, the runs in which a position taken before a
    dispatch no longer names its cell. *)
Inductive Outcome :=
| Threw (message : string)
| Returned (ok : bool) (st : EditorState)
| OffGrid.

(** ** Grid map

    The table map of the host's table library, for tables whose cells
    carry the host's default spans (the extension keeps its own spans in
    [rmColspan] and [rmRowspan]): the grid is the table's rows, its height
    the number of rows and its width the length of the longest row. *)
Module TableMap.

Definition height (t : Table) : nat := length (rowsOfTable t).

Definition width (t : Table) : nat :=
  foldr (λ r acc, Nat.max (length (rowCells r)) acc) 0%nat (rowsOfTable t).

Definition cellAt (t : Table) (r c : nat) : option Cell :=
  row ← rowsOfTable t !! r; rowCells row !! c.

Record Rect := mkRect { left : nat; right : nat; top : nat; bottom : nat }.

(** [rectBetween]: the smallest rectangle that holds both cells. *)
Definition rectBetween (a b : nat * nat) : Rect :=
  {| left := Nat.min (snd a) (snd b);
     right := S (Nat.max (snd a) (snd b));
     top := Nat.min (fst a) (fst b);
     bottom := S (Nat.max (fst a) (fst b)) |}.

Definition rectWidth (rc : Rect) : nat := right rc - left rc.
Definition rectHeight (rc : Rect) : nat := bottom rc - top rc.

(** The grid coordinates of a rectangle in row-major order. *)
Definition coords (rc : Rect) : list (nat * nat) :=
  r ← seq (top rc) (rectHeight rc);
  c ← seq (left rc) (rectWidth rc);
  [(r, c)].

Definition inRect (rc : Rect) (r c : nat) : bool :=
  bool_decide (top rc ≤ r < bottom rc)%nat
  && bool_decide (left rc ≤ c < right rc)%nat.

Definition isChildRow (c : TableChild) : bool :=
  match c with ChildRow _ => true | ChildGroup _ => false end.

(** The table is a plain grid of rows and both ends of the selection
    are cells of it. *)
Definition onGrid (t : Table) (a b : nat * nat) : bool :=
  forallb isChildRow (tableChildren t)
  && bool_decide (is_Some (cellAt t a.1 a.2))
  && bool_decide (is_Some (cellAt t b.1 b.2)).

End TableMap.

Definition tableAt (d : Doc) (ti : nat) : option Table :=
  match d !! ti with
  | Some (DTable t) => Some t
  | _ => None
  end.

(** Replacing cells of one table: [f r c cell] is the node put in place
    of the cell at grid coordinates [(r, c)]. *)
Definition mapTableCells (f : nat → nat → Cell → Cell) (t : Table) : Table :=
  spliceTable (λ r row, [setRowCells (imap (f r) (rowCells row)) row]) 0 t.

Definition updateTable (ti : nat) (g : Table → Table) (d : Doc) : Doc :=
  alter (λ n, match n with DTable t => DTable (g t) | DBlock b => DBlock b end) ti d.

(** ** Merge engine (TableMergePlus.ts) *)

Module Merge.
Import TableMap.

(** [cell.node.attrs?.rmMergedTo] is set. *)
Definition isCovered (c : Cell) : bool := Js.truthy (rmMergedTo c).

(** [rmMergeOrigin && (rmRowspan > 1 || rmColspan > 1)]. *)
Definition isMergedOrigin (c : Cell) : bool :=
  rmMergeOrigin c
  && (bool_decide (1 < rmRowspan c)%Z || bool_decide (1 < rmColspan c)%Z).

(** [emptyCellContent]: one filled paragraph; [None] stands for the
    error thrown when the schema has no paragraph node. *)
Definition emptyCellContent (s : Schema) : option (list Block) :=
  if hasParagraph s then Some [emptyParagraph (defaultAttrs s)] else None.

Definition NO_PARAGRAPH : string :=
  "Schema must have paragraph node for table cells.".

(** The cells of the selection rectangle in row-major order; [None]
    when a grid cell of the rectangle does not resolve to a cell. *)
Definition collectCells (t : Table) (rc : Rect)
  : option (list (nat * nat * Cell)) :=
  mapM (λ rc', n ← cellAt t rc'.1 rc'.2; Some (rc'.1, rc'.2, n)) (coords rc).

Definition isTopLeft (rc : Rect) (x : nat * nat * Cell) : Prop :=
  x.1.1 = top rc ∧ x.1.2 = left rc.

Global Instance isTopLeft_dec rc x : Decision (isTopLeft rc x).
Proof. unfold isTopLeft. apply _. Defined.

Definition contribution (c : Cell) : list Block :=
  if isVisuallyEmptyCell c then [] else meaningfulBlocksFromCell c.

(** The consolidated content: the origin first, then the other cells
    in row-major order, each without its trivial paragraphs, visually
    empty cells left out. *)
Definition mergedBlocksOf (rc : Rect) (origin : Cell)
    (cells : list (nat * nat * Cell)) : list Block :=
  contribution origin
  ++ (filter (λ x, ¬ isTopLeft rc x) cells ≫= λ x, contribution x.2).

Definition mergedOriginOf (origin : Cell) (w h : nat) (blocks : list Block)
  : Cell :=
  {| cellKind := cellKind origin;
     rmCellId := rmCellId origin;
     rmMergeOrigin := true;
     rmMergedTo := None;
     rmHideMode := None;
     rmColspan := Z.of_nat w;
     rmRowspan := Z.of_nat h;
     cellContent := blocks |}.

Definition coveredCellOf (rc : Rect) (originId : string) (empty : list Block)
    (r : nat) (c : Cell) : Cell :=
  {| cellKind := cellKind c;
     rmCellId := rmCellId c;
     rmMergeOrigin := false;
     rmMergedTo := Some originId;
     rmHideMode := Some (if decide (r = top rc) then HideNone else HideHidden);
     rmColspan := 1;
     rmRowspan := 1;
     cellContent := empty |}.

Definition mergeRewrite (rc : Rect) (mergedOrigin : Cell) (originId : string)
    (empty : list Block) (r c : nat) (n : Cell) : Cell :=
  if inRect rc r c then
    if decide (r = top rc ∧ c = left rc) then mergedOrigin
    else coveredCellOf rc originId empty r n
  else n.

Definition mergeInternal (s : Schema) (st : EditorState) : Outcome :=
  let failed := Returned false st in
  match selection st with
  | CellSelection ti a b =>
      match tableAt (doc st) ti with
      | None => failed
      | Some t =>
          if negb (onGrid t a b) then OffGrid else
          let rc := rectBetween a b in
          let width := rectWidth rc in
          let height := rectHeight rc in
          if bool_decide (width = 1%nat) && bool_decide (height = 1%nat)
          then failed
          else
            match collectCells t rc with
            | None => failed
            | Some cells =>
                if existsb (λ x, isCovered x.2 || isMergedOrigin x.2) cells
                then failed
                else
                  match list_find (isTopLeft rc) cells with
                  | None => Threw "origin is undefined"
                  | Some (_, (_, _, origin)) =>
                      match rmCellId origin with
                      | Some originId =>
                          if Js.isEmpty originId then failed
                          else
                            let blocks := mergedBlocksOf rc origin cells in
                            if bool_decide (length blocks = 0%nat)
                               && negb (hasParagraph s)
                            then Threw "paragraph is undefined"
                            else
                              let mergedBlocks :=
                                if bool_decide (length blocks = 0%nat)
                                then [BText PARAGRAPH (defaultAttrs s PARAGRAPH) []]
                                else blocks in
                              let mergedOrigin :=
                                mergedOriginOf origin width height mergedBlocks in
                              match emptyCellContent s with
                              | None => Threw NO_PARAGRAPH
                              | Some empty =>
                                  Returned true
                                    (mkState
                                       (updateTable ti
                                          (mapTableCells
                                             (mergeRewrite rc mergedOrigin originId empty))
                                          (doc st))
                                       (selection st))
                              end
                      | None => failed
                      end
                  end
            end
      end
  | _ => failed
  end.

(** The merge a cell belongs to, as [unmergeInternal] reads it off the
    anchor or head cell. *)
Definition mergeIdOf (before : option string) (n : Cell) : option string :=
  if Js.truthy (rmMergedTo n) then rmMergedTo n
  else if isMergedOrigin n then rmCellId n
  else before.

(** Every cell of the table with its grid coordinates, in document
    order. *)
Definition tableCells (t : Table) : list (nat * nat * Cell) :=
  mjoin (imap (λ r row, imap (λ c n, (r, c, n)) (rowCells row)) (rowsOfTable t)).

Definition isOriginOf (originId : string) (x : nat * nat * Cell) : Prop :=
  rmCellId x.2 = Some originId
  ∧ (rmMergeOrigin x.2 || bool_decide (1 < rmRowspan x.2)%Z
     || bool_decide (1 < rmColspan x.2)%Z) = true.

Global Instance isOriginOf_dec o x : Decision (isOriginOf o x).
Proof. unfold isOriginOf. apply _. Defined.

Definition resetCell (content : list Block) (n : Cell) : Cell :=
  {| cellKind := cellKind n;
     rmCellId := rmCellId n;
     rmMergeOrigin := false;
     rmMergedTo := None;
     rmHideMode := None;
     rmColspan := 1;
     rmRowspan := 1;
     cellContent := content |}.

(** The replacement [unmergeInternal] pushes for a cell of the merged
    rectangle, if any. *)
Definition unmergeUpdate (origin : nat * nat) (originId : string)
    (empty : list Block) (r c : nat) (n : Cell) : option Cell :=
  if decide (r = origin.1 ∧ c = origin.2) then Some (resetCell (cellContent n) n)
  else if decide (rmMergedTo n = Some originId) then Some (resetCell empty n)
  else None.

Definition unmergeRewrite (rc : Rect) (origin : nat * nat) (originId : string)
    (empty : list Block) (r c : nat) (n : Cell) : Cell :=
  if inRect rc r c then default n (unmergeUpdate origin originId empty r c n)
  else n.

Definition unmergeInternal (s : Schema) (st : EditorState) : Outcome :=
  let failed := Returned false st in
  match selection st with
  | CellSelection ti a b =>
      match tableAt (doc st) ti with
      | None => failed
      | Some t =>
          if negb (onGrid t a b) then OffGrid else
          match cellAt t a.1 a.2 with
          | None => failed
          | Some anchorNode =>
              let fromAnchor := mergeIdOf None anchorNode in
              let found :=
                if Js.truthy fromAnchor then fromAnchor
                else
                  match cellAt t b.1 b.2 with
                  | Some headNode => mergeIdOf fromAnchor headNode
                  | None => fromAnchor
                  end in
              match found with
              | Some originId =>
                  if Js.isEmpty originId then failed
                  else
                    match list_find (isOriginOf originId) (tableCells t) with
                    | None => failed
                    | Some (_, (r0, c0, originNode2)) =>
                        let spanW := rmColspan originNode2 in
                        let spanH := rmRowspan originNode2 in
                        if bool_decide (spanW ≤ 1)%Z && bool_decide (spanH ≤ 1)%Z
                        then failed
                        else
                          let rc :=
                            {| left := c0;
                               right := Z.to_nat (Z.min (Z.of_nat c0 + spanW)
                                                        (Z.of_nat (width t)));
                               top := r0;
                               bottom := Z.to_nat (Z.min (Z.of_nat r0 + spanH)
                                                         (Z.of_nat (height t))) |} in
                          match emptyCellContent s with
                          | None => Threw NO_PARAGRAPH
                          | Some empty =>
                              let updates :=
                                omap (λ rc', n ← cellAt t rc'.1 rc'.2;
                                             unmergeUpdate (r0, c0) originId empty
                                               rc'.1 rc'.2 n)
                                     (coords rc) in
                              if bool_decide (length updates = 0%nat) then failed
                              else
                                Returned true
                                  (mkState
                                     (updateTable ti
                                        (mapTableCells
                                           (unmergeRewrite rc (r0, c0) originId empty))
                                        (doc st))
                                     (selection st))
                          end
                    end
              | None => failed
              end
          end
      end
  | _ => failed
  end.


End Merge.

(** ** Row overflow engine: inputs *)

(** What the engine measures on a rendered cell.  Pixel values are exact
    rationals.  [caretPos] is the position the caret probe returns and
    [searchPos] the one the character search over the first block
    returns, both as offsets from the start of the cell content. *)
Record CellDom := mkCellDom {
  scrollHeight : Q;
  clientHeight : Q;
  maxHeightCss : option Q;
  contentBox : option (Q * Q);
  innerBottom : Q;
  blockBottoms : list Q;
  blockHeights : list Q;
  caretPos : option Z;
  searchPos : option Z;
}.

Record View := mkView {
  state : EditorState;
  activeCellDom : option CellDom;
  cellDomAt : nat → nat → option CellDom;
}.

(** The selection a transaction sets: the old selection mapped through
    its steps, or a caret placed inside a cell. *)
Inductive TrSelection :=
| MappedSelection (old : Selection)
| CaretInCell (row cell : nat).

(** A transaction: the document it leads to, the selection it sets,
    whether it carries the [rmRowCleanup] meta flag, and its number of
    steps. *)
Record Transaction := mkTr {
  trDoc : Doc;
  trSelection : TrSelection;
  rowCleanupMeta : bool;
  trSteps : nat;
}.

Definition docChanged (tr : Transaction) : bool := bool_decide (0 < trSteps tr)%nat.

(** The result of one run of a step of the engine: nothing dispatched
    (the function returns false), a dispatched transaction, an exception,
    or a run whose effect is defined by the host and lies outside the
    structural model.  The last covers three situations: the merge-back
    moves a block out of a cell that precedes the origin cell, and then
    writes at the position of the origin cell taken before the move; a row
    is deleted that is the only child of its table or group (the host then
    repairs the parent); a cut does not fall where the step expects
    it. *)
Inductive StepResult :=
| NoDispatch
| Dispatch (tr : Transaction)
| Raised
| HostDefined.

Definition MERGE_BACK_MIN_FREE_PX : Q := 18.
Definition MERGE_BACK_BUFFER_PX : Q := 10.

Definition Qgtb (a b : Q) : bool := negb (Qle_bool a b).
Definition Qltb (a b : Q) : bool := negb (Qle_bool b a).

(** [isOverflowing]: the cell or its content box scrolls by more than one
    pixel. *)
Definition isOverflowing (el : CellDom) : bool :=
  let tdOverflow := Qgtb (scrollHeight el) (clientHeight el + 1) in
  let contentOverflow :=
    match contentBox el with
    | Some (sh, ch) => Qgtb sh (ch + 1)
    | None => false
    end in
  tdOverflow || contentOverflow.

(** [getCellAvailableCapacityPx]. *)
Definition getCellAvailableCapacityPx (td : CellDom) : Q :=
  let maxHeightPx := default (clientHeight td) (maxHeightCss td) in
  let capacity := maxHeightPx - scrollHeight td in
  if Qle_bool 0 capacity then capacity else 0.

(** The row, cell and table around the selection head.  A cell selection
    starts in its head cell. *)
Record TableContext := mkCtx {
  rowPos : nat;
  cellIndex : nat;
  rowNode : Row;
  cellNode : Cell;
  tableNode : option Table;
}.

Definition rowBase (d : Doc) (ti : nat) : nat := length (rowsOfDoc (take ti d)).

Definition contextAt (d : Doc) (k ci : nat) : option TableContext :=
  row ← rowAt d k;
  cell ← rowCells row !! ci;
  Some (mkCtx k ci row cell (tableOfRow d k)).

Definition getSelectionTableContext (st : EditorState) : option TableContext :=
  match selection st with
  | TextSelection k ci => contextAt (doc st) k ci
  | CellSelection ti _ h =>
      _ ← tableAt (doc st) ti; contextAt (doc st) (rowBase (doc st) ti + h.1) h.2
  | NoSelection => None
  end.

Definition tableLocked (t : option Table) : bool :=
  match t with Some t => locked t | None => false end.

(** [getCellPosInRow]: the cell address, when the row has that cell. *)
Definition getCellPosInRow (d : Doc) (k ci : nat) : option (nat * nat) :=
  row ← rowAt d k; _ ← rowCells row !! ci; Some (k, ci).

(** [ensureRowId]: keep a set, non-blank identifier, else take a new one. *)
Definition ensureRowId (existing : option string) (fresh : string) : string :=
  match existing with
  | Some s => if Js.truthy existing && negb (isBlank s) then s else fresh
  | None => fresh
  end.

(** ** Split point *)

Inductive SplitPoint :=
| BlockCut (cutPos : Z)
| InlineCut (cutPos : Z).

(** The index of the last leading block whose bottom lies within the
    allowed height (with half a pixel of slack), if any. *)
Fixpoint lastFullyVisibleFrom (innerBottom : Q) (bottoms : list Q) (i : nat)
    (acc : option nat) : option nat :=
  match bottoms with
  | [] => acc
  | b :: bs =>
      if Qle_bool b (innerBottom + (1 # 2))
      then lastFullyVisibleFrom innerBottom bs (S i) (Some i)
      else acc
  end.

(** [cutPosAfterBlockIndex], relative to the start of the cell content;
    [None] stands for the range error of reading a child past the end. *)
Definition cutPosAfterBlockIndex (c : Cell) (blockIndex : nat) : option Z :=
  if decide (blockIndex < length (cellContent c))%nat
  then Some (Z.of_nat (contentSize (take (S blockIndex) (cellContent c))))
  else None.

Inductive SplitResult :=
| NoSplit
| SplitAt (p : SplitPoint)
| SplitRaised.

Definition computeSplitPoint (cellDom : CellDom) (c : Cell) : SplitResult :=
  match contentBox cellDom with
  | None => NoSplit
  | Some _ =>
      let blocks := length (blockBottoms cellDom) in
      let viaProbe :=
        match caretPos cellDom with
        | Some p => SplitAt (InlineCut p)
        | None =>
            if decide (blocks = 0)%nat then NoSplit
            else match searchPos cellDom with
                 | Some p => SplitAt (InlineCut p)
                 | None => NoSplit
                 end
        end in
      match lastFullyVisibleFrom (innerBottom cellDom) (blockBottoms cellDom) 0 None with
      | Some lfv =>
          if decide (lfv < blocks - 1)%nat then
            let idx := Nat.min lfv (Nat.max 0 (length (cellContent c) - 1)) in
            match cutPosAfterBlockIndex c idx with
            | Some p => SplitAt (BlockCut p)
            | None => SplitRaised
            end
          else viaProbe
      | None => viaProbe
      end
  end.

(** Cutting cell content at a position.  [splitBlocksAt] cuts at a block
    boundary; [splitInlineAt] cuts the inline content of a text block;
    [cutInBlocks] resolves a position to the text block around it and
    cuts its tail off, wrapped in a block of the same type with default
    attributes. *)
Fixpoint splitBlocksAt (bs : list Block) (off : nat)
    : option (list Block * list Block) :=
  match off, bs with
  | O, _ => Some ([], bs)
  | _, [] => None
  | _, b :: bs' =>
      if decide (nodeSize b ≤ off)%nat
      then '(keep, tail) ← splitBlocksAt bs' (off - nodeSize b); Some (b :: keep, tail)
      else None
  end.

Fixpoint stringTake (n : nat) (s : string) : string :=
  match n, s with
  | S n', String a s' => String a (stringTake n' s')
  | _, _ => EmptyString
  end.

Fixpoint stringDrop (n : nat) (s : string) : string :=
  match n, s with
  | S n', String _ s' => stringDrop n' s'
  | _, _ => s
  end.

Fixpoint splitInlineAt (l : list Inline) (off : nat) : list Inline * list Inline :=
  match off, l with
  | O, _ => ([], l)
  | _, [] => ([], [])
  | _, IText s :: l' =>
      if decide (String.length s ≤ off)%nat
      then let '(keep, tail) := splitInlineAt l' (off - String.length s) in
           (IText s :: keep, tail)
      else ([IText (stringTake off s)], IText (stringDrop off s) :: l')
  | S off', ILeaf n :: l' =>
      let '(keep, tail) := splitInlineAt l' off' in (ILeaf n :: keep, tail)
  end.

Section Cut.
Context (defaults : string → string).

Section CutList.
Context (cut : Block → nat → option (Block * Block)).

Fixpoint cutInList (bs : list Block) (off : nat) : option (list Block * Block) :=
  match bs with
  | [] => None
  | b :: bs' =>
      if decide (off < nodeSize b)%nat then
        '(b', moved) ← cut b off; Some (b' :: bs', moved)
      else
        '(rest, moved) ← cutInList bs' (off - nodeSize b); Some (b :: rest, moved)
  end.
End CutList.

(** The position [off], counted from just before the block, lies inside
    a text block of [b] and before its end: the text block keeps what
    precedes the position, and what follows is returned in a new block of
    the same type with default attributes. *)
Fixpoint cutInBlock (b : Block) (off : nat) {struct b} : option (Block * Block) :=
  match off, b with
  | S o, BText name attrs body =>
      if decide (o < inlinesSize body)%nat then
        let '(keep, tail) := splitInlineAt body o in
        Some (BText name attrs keep, BText name (defaults name) tail)
      else None
  | S o, BNode name kids =>
      '(kids', moved) ← cutInList cutInBlock kids o; Some (BNode name kids', moved)
  | _, _ => None
  end.

Definition cutInBlocks : list Block → nat → option (list Block * Block) :=
  cutInList cutInBlock.

(** What the host leaves in a node that requires a block when all of its
    content is deleted: one empty paragraph. *)
Definition fillBlocks (bs : list Block) : list Block :=
  match bs with
  | [] => [emptyParagraph defaults]
  | _ => bs
  end.

Inductive CutResult :=
| CutNone
| CutDone (keep moved : list Block)
| CutUnaligned.

(** The cut of the paginate step on the content of the origin cell:
    what stays and what moves.  Positions are relative to the start of
    the cell content, so the clamp is to [0] and the content size. *)
Definition cutCell (sp : SplitPoint) (c : Cell) : CutResult :=
  let size := Z.of_nat (contentSize (cellContent c)) in
  match sp with
  | BlockCut p =>
      let cutPos := Js.clamp p 0 size in
      if bool_decide (size ≤ cutPos)%Z then CutNone
      else
        match splitBlocksAt (cellContent c) (Z.to_nat cutPos) with
        | Some (keep, tail) => CutDone (fillBlocks keep) tail
        | None => CutUnaligned
        end
  | InlineCut p =>
      let cutPos := Js.clamp p 0 size in
      match cutInBlocks (cellContent c) (Z.to_nat cutPos) with
      | Some (rest, moved) => CutDone rest [moved]
      | None => CutNone
      end
  end.

End Cut.

(** ** Cells by address *)

Definition cellAtAddr (d : Doc) (k ci : nat) : option Cell :=
  row ← rowAt d k; rowCells row !! ci.

Definition updateCell (k ci : nat) (g : Cell → Cell) (d : Doc) : Doc :=
  updateRow k (λ r, setRowCells (alter g ci (rowCells r)) r) d.

(** [tr.setNodeMarkup(rowPos, undefined, attrs)]: the attributes are
    replaced, the cells stay. *)
Definition setRowAttrs (a : Row) (r : Row) : Row :=
  mkRow (rmRowId a) (rmLinkedPrev a) (rmLinkedNext a) (textAlign a) (rowCells r).

(** For each row of the document, in document order, the number of
    children of its parent (its table, or its row group). *)
Definition siblingsOfChild (n : nat) (c : TableChild) : list nat :=
  match c with
  | ChildRow _ => [n]
  | ChildGroup rs => replicate (length rs) (length rs)
  end.

Definition siblingsOfNode (n : DocNode) : list nat :=
  match n with
  | DTable t => tableChildren t ≫= siblingsOfChild (length (tableChildren t))
  | DBlock _ => []
  end.

Definition siblingCounts (d : Doc) : list nat := d ≫= siblingsOfNode.

(** The row at [k] is the only child of its parent. *)
Definition soleRow (d : Doc) (k : nat) : bool :=
  bool_decide (siblingCounts d !! k = Some 1%nat).

(** ** Pagination *)

(** [buildEmptyLinkedRow]: the attributes of [fromRow] with the three
    chain attributes replaced, and one empty cell for each of its cells,
    of the same type and with its merge attributes reset. *)
Definition emptyCellLike (defaults : string → string) (c : Cell) : Cell :=
  {| cellKind := cellKind c;
     rmCellId := None;
     rmMergeOrigin := false;
     rmMergedTo := None;
     rmHideMode := None;
     rmColspan := 1;
     rmRowspan := 1;
     cellContent := [emptyParagraph defaults] |}.

Definition buildEmptyLinkedRow (s : Schema) (fromRow : Row) (id : string)
    (prev next : option string) : Row :=
  {| rmRowId := Some id;
     rmLinkedPrev := prev;
     rmLinkedNext := next;
     textAlign := textAlign fromRow;
     rowCells := emptyCellLike (defaultAttrs s) <$> rowCells fromRow |}.

(** The moved blocks replace an empty placeholder and are put before any
    other content. *)
Definition insertMoved (moved : list Block) (target : Cell) : Cell :=
  if isEmptyPlaceholderCell target then setCellContent moved target
  else setCellContent (moved ++ cellContent target) target.

(** The identifiers [newId] returns during one step: the first is used
    if the origin row needs an identifier, the second if a continuation row
    is created. *)
Record FreshIds := mkFresh { freshRowId : string; freshNextId : string }.

(** The part of the paginate step shared, line by line, by
    [maybePaginateActiveCell] and [paginateCellAtContext]: everything
    after the split point is known, up to the choice of the selection,
    which [sel] makes from the address of the continuation row. *)
Definition paginateFrom (s : Schema) (st : EditorState) (ctx : TableContext)
    (split : SplitPoint) (ids : FreshIds) (sel : nat → TrSelection) : StepResult :=
  let k := rowPos ctx in
  let ci := cellIndex ctx in
  let row := rowNode ctx in
  let originRowId := ensureRowId (rmRowId row) (freshRowId ids) in
  let '(d1, n1) :=
    if decide (rmRowId row = Some originRowId) then (doc st, 0%nat)
    else (updateRow k (setRowAttrs (setRowId (Some originRowId) row)) (doc st), 1%nat) in
  let nextRowIdExisting := rmLinkedNext row in
  let nextRowId := default (freshNextId ids) nextRowIdExisting in
  let '(d2, n2) :=
    if Js.truthy nextRowIdExisting then (d1, 0%nat)
    else
      (insertRowAfter k
         (buildEmptyLinkedRow s row nextRowId (Some originRowId) None)
         (updateRow k
            (setRowAttrs (setLinkedNext (Some nextRowId)
                            (setRowId (Some originRowId) row))) d1),
       2%nat) in
  match cutCell (defaultAttrs s) split (cellNode ctx) with
  | CutNone => NoDispatch
  | CutUnaligned => HostDefined
  | CutDone keep moved =>
      let d3 := updateCell k ci (setCellContent keep) d2 in
      match findRowPosById d3 nextRowId with
      | None => NoDispatch
      | Some kn =>
          let '(d4, n4) :=
            match rowAt d3 kn with
            | Some nextRowNode =>
                if decide (rmLinkedPrev nextRowNode = Some originRowId) then (d3, 0%nat)
                else (updateRow kn (setLinkedPrev (Some originRowId)) d3, 1%nat)
            | None => (d3, 0%nat)
            end in
          match cellAtAddr d4 kn ci with
          | None => NoDispatch
          | Some _ =>
              Dispatch
                {| trDoc := updateCell kn ci (insertMoved moved) d4;
                   trSelection := sel kn;
                   rowCleanupMeta := false;
                   trSteps := n1 + n2 + 1 + n4 + 1 |}
          end
      end
  end.

Definition paginateCellAtContext (s : Schema) (st : EditorState)
    (ctx : TableContext) (cellDom : CellDom) (ids : FreshIds) : StepResult :=
  if tableLocked (tableNode ctx) then NoDispatch
  else if negb (isOverflowing cellDom) then NoDispatch
  else
    match computeSplitPoint cellDom (cellNode ctx) with
    | NoSplit => NoDispatch
    | SplitRaised => Raised
    | SplitAt split =>
        match paginateFrom s st ctx split ids (λ _, MappedSelection (selection st)) with
        | Dispatch tr => if bool_decide (trSteps tr = 0%nat) then NoDispatch else Dispatch tr
        | r => r
        end
    end.

Definition maybePaginateActiveCell (s : Schema) (v : View) (moveSelection : bool)
    (ids : FreshIds) : StepResult :=
  match getSelectionTableContext (state v) with
  | None => NoDispatch
  | Some info =>
      if tableLocked (tableNode info) then NoDispatch
      else
        match activeCellDom v with
        | None => NoDispatch
        | Some cellDom =>
            if negb (isOverflowing cellDom) then NoDispatch
            else
              match computeSplitPoint cellDom (cellNode info) with
              | NoSplit => NoDispatch
              | SplitRaised => Raised
              | SplitAt split =>
                  paginateFrom s (state v) info split ids
                    (λ kn, if moveSelection then CaretInCell kn (cellIndex info)
                           else MappedSelection (selection (state v)))
              end
        end
  end.

(** ** Merge-back *)

Inductive MoveResult :=
| MoveFailed
| Moved (d : Doc)
| MoveHostDefined.

(** [moveWholeBlockFromNextToOrigin]: the block at [nextBlockIndex] of
    the cell [(kn, ci)] is deleted there and put into the cell [(k, ci)],
    in place of an empty placeholder or after its content.  The origin cell
    is read at the position taken before the deletion, which still names
    it unless the continuation row precedes the origin row. *)
Definition moveWholeBlockFromNextToOrigin (defaults : string → string) (d : Doc)
    (k ci kn nextBlockIndex : nat) : MoveResult :=
  match cellAtAddr d kn ci with
  | None => MoveFailed
  | Some nextCellNode =>
      match cellContent nextCellNode !! nextBlockIndex with
      | None => MoveFailed
      | Some block =>
          let d1 :=
            updateCell kn ci
              (λ c, setCellContent
                      (fillBlocks defaults (delete nextBlockIndex (cellContent c))) c) d in
          if decide (kn < k)%nat then MoveHostDefined
          else
            match cellAtAddr d1 k ci with
            | None => MoveFailed
            | Some originCellNode =>
                Moved
                  (updateCell k ci
                     (λ c, if isEmptyPlaceholderCell originCellNode
                           then setCellContent [block] c
                           else setCellContent (cellContent c ++ [block]) c) d1)
            end
      end
  end.

(** ** Positions of rows

    The sizes of the host's nodes, and the positions at which the rows of
    the document start, in document order.  They are needed where the
    engine reuses a position after a deletion that precedes it. *)

Definition cellSize (c : Cell) : nat := 2 + contentSize (cellContent c).
Definition rowSize (r : Row) : nat := 2 + sum_list (cellSize <$> rowCells r).

Definition childSize (c : TableChild) : nat :=
  match c with
  | ChildRow r => rowSize r
  | ChildGroup rs => 2 + sum_list (rowSize <$> rs)
  end.

Definition docNodeSize (n : DocNode) : nat :=
  match n with
  | DTable t => 2 + sum_list (childSize <$> tableChildren t)
  | DBlock b => nodeSize b
  end.

(** [doc.content.size]. *)
Definition docSize (d : Doc) : nat := sum_list (docNodeSize <$> d).

Fixpoint rowStartsOfRows (p : nat) (rs : list Row) : list nat :=
  match rs with
  | [] => []
  | r :: rs' => p :: rowStartsOfRows (p + rowSize r) rs'
  end.

Definition rowStartsOfChild (p : nat) (c : TableChild) : list nat :=
  match c with
  | ChildRow _ => [p]
  | ChildGroup rs => rowStartsOfRows (p + 1) rs
  end.

Fixpoint rowStartsOfChildren (p : nat) (cs : list TableChild) : list nat :=
  match cs with
  | [] => []
  | c :: cs' => rowStartsOfChild p c ++ rowStartsOfChildren (p + childSize c) cs'
  end.

Fixpoint rowStartsFrom (p : nat) (d : Doc) : list nat :=
  match d with
  | [] => []
  | DTable t :: d' =>
      rowStartsOfChildren (p + 1) (tableChildren t)
      ++ rowStartsFrom (p + docNodeSize (DTable t)) d'
  | DBlock b :: d' => rowStartsFrom (p + nodeSize b) d'
  end.

(** The position of each row of the document, in document order. *)
Definition rowStarts (d : Doc) : list nat := rowStartsFrom 0 d.

(** [safeSetNodeMarkup(tr, pos, NODE_ROW, patch)] at a position of the
    host: the row that starts at [pos], if any, is rewritten; [None] stands
    for the range error of a position beyond the end of the document. *)
Definition setRowMarkupAtPos (pos : nat) (g : Row → Row) (d : Doc)
    : option (Doc * nat) :=
  if decide (docSize d < pos)%nat then None
  else
    match list_find (λ q, q = pos) (rowStarts d) with
    | Some (j, _) => Some (updateRow j g d, 1%nat)
    | None => Some (d, 0%nat)
    end.

(** The relinking of the row after a deleted continuation row, shared by
    [deleteRowIfEmptyAndRelink] and [cleanupEmptyLinkedRowInTr]: the row
    named [nextNextId], if the document has it, gets [currentRowId] as its
    predecessor. *)
Definition relinkNextNext (currentRowId : string) (nextNextId : option string)
    (d : Doc) : Doc * nat :=
  match nextNextId with
  | Some nn =>
      match findRowPosById d nn with
      | Some p => (updateRow p (setLinkedPrev (Some currentRowId)) d, 1%nat)
      | None => (d, 0%nat)
      end
  | None => (d, 0%nat)
  end.

(** [deleteRowIfEmptyAndRelink].  The current row is rewritten at the
    position taken before the deletion.  When the deleted row comes after
    the current row, that position still names the current row.  When it
    does not, the position lies beyond the start of the current row by the
    size of the deleted row: the row that starts there, if any, is
    rewritten instead, and the current row keeps its pointer. *)
Definition deleteRowIfEmptyAndRelink (st : EditorState) (currentRowId : string)
    (currentRowPos nextRowPos : nat) : StepResult :=
  match rowAt (doc st) nextRowPos with
  | None => NoDispatch
  | Some nextRowNode =>
      if negb (isRowCompletelyEmpty nextRowNode) then NoDispatch
      else
        let nextNextId := Js.asStringOrNull (rmLinkedNext nextRowNode) in
        if soleRow (doc st) nextRowPos then HostDefined
        else if decide (nextRowPos ≤ currentRowPos)%nat then
          let d1 := deleteRow nextRowPos (doc st) in
          match rowStarts (doc st) !! currentRowPos with
          | None => NoDispatch (* the current row is a row of the document *)
          | Some pos =>
              match setRowMarkupAtPos pos (setLinkedNext nextNextId) d1 with
              | None => Raised
              | Some (d2, n2) =>
                  let '(d3, n3) := relinkNextNext currentRowId nextNextId d2 in
                  Dispatch
                    {| trDoc := d3;
                       trSelection := MappedSelection (selection st);
                       rowCleanupMeta := true;
                       trSteps := 1 + n2 + n3 |}
              end
          end
        else
          let d1 := deleteRow nextRowPos (doc st) in
          let d2 := updateRow currentRowPos (setLinkedNext nextNextId) d1 in
          let '(d3, n3) := relinkNextNext currentRowId nextNextId d2 in
          Dispatch
            {| trDoc := d3;
               trSelection := MappedSelection (selection st);
               rowCleanupMeta := true;
               trSteps := 2 + n3 |}
  end.

(** [cleanupEmptyLinkedRowInTr] on the document of the transaction;
    [None] when the deleted row is the only child of its parent. *)
Definition cleanupEmptyLinkedRowInTr (d : Doc) (currentRowId nextRowId : string)
    : option (Doc * nat) :=
  match findRowPosById d nextRowId with
  | None => Some (d, 0%nat)
  | Some nextRowPos =>
      match rowAt d nextRowPos with
      | None => Some (d, 0%nat)
      | Some nextRowNode =>
          if negb (isRowCompletelyEmpty nextRowNode) then Some (d, 0%nat)
          else
            let nextNextId := Js.asStringOrNull (rmLinkedNext nextRowNode) in
            if soleRow d nextRowPos then None
            else
              let d1 := deleteRow nextRowPos d in
              let '(d2, n2) :=
                match findRowPosById d1 currentRowId with
                | Some p => (updateRow p (setLinkedNext nextNextId) d1, 1%nat)
                | None => (d1, 0%nat)
                end in
              let '(d3, n3) := relinkNextNext currentRowId nextNextId d2 in
              Some (d3, 1 + n2 + n3)%nat
      end
  end.

Definition maybeMergeBackActiveCell (s : Schema) (v : View) : StepResult :=
  let st := state v in
  match getSelectionTableContext st with
  | None => NoDispatch
  | Some info =>
      if tableLocked (tableNode info) then NoDispatch
      else
        match Js.asStringOrNull (rmRowId (rowNode info)),
              Js.asStringOrNull (rmLinkedNext (rowNode info)) with
        | Some currentRowId, Some nextRowId =>
            match activeCellDom v with
            | None => NoDispatch
            | Some originTd =>
                if isOverflowing originTd then NoDispatch
                else
                  let capacityPx := getCellAvailableCapacityPx originTd in
                  if Qltb capacityPx MERGE_BACK_MIN_FREE_PX then NoDispatch
                  else
                    match findRowPosById (doc st) nextRowId with
                    | None => NoDispatch
                    | Some nextRowPos =>
                        match rowAt (doc st) nextRowPos with
                        | None => NoDispatch
                        | Some nextRowNode =>
                            let nextPrev := Js.asStringOrNull (rmLinkedPrev nextRowNode) in
                            if bool_decide (is_Some nextPrev)
                               && negb (bool_decide (nextPrev = Some currentRowId))
                            then NoDispatch
                            else
                              match rowCells nextRowNode !! cellIndex info with
                              | None => NoDispatch
                              | Some nextCellNode =>
                                  if isRowCompletelyEmpty nextRowNode then
                                    deleteRowIfEmptyAndRelink st currentRowId
                                      (rowPos info) nextRowPos
                                  else
                                    match cellDomAt v nextRowPos (cellIndex info) with
                                    | None => NoDispatch
                                    | Some nextTd =>
                                        match contentBox nextTd,
                                              getFirstMeaningfulBlockIndex nextCellNode with
                                        | Some _, Some firstBlockIndex =>
                                            match blockHeights nextTd !! firstBlockIndex with
                                            | None => NoDispatch
                                            | Some blockH =>
                                                if Qgtb (blockH + MERGE_BACK_BUFFER_PX) capacityPx
                                                then NoDispatch
                                                else
                                                  match moveWholeBlockFromNextToOrigin
                                                          (defaultAttrs s) (doc st) (rowPos info)
                                                          (cellIndex info) nextRowPos
                                                          firstBlockIndex with
                                                  | MoveFailed => NoDispatch
                                                  | MoveHostDefined => HostDefined
                                                  | Moved d1 =>
                                                      match cleanupEmptyLinkedRowInTr d1
                                                              currentRowId nextRowId with
                                                      | None => HostDefined
                                                      | Some (d2, n2) =>
                                                          Dispatch
                                                            {| trDoc := d2;
                                                               trSelection :=
                                                                 MappedSelection (selection st);
                                                               rowCleanupMeta := true;
                                                               trSteps := 2 + n2 |}
                                                      end
                                                  end
                                            end
                                        | _, _ => NoDispatch
                                        end
                                    end
                              end
                        end
                    end
            end
        | _, _ => NoDispatch
        end
  end.

(** ** Chain cleanup *)

(** A [Map] keyed by strings, in insertion order: setting a present key
    replaces its value in place. *)
Fixpoint mapSet {A} (k : string) (v : A) (m : list (string * A)) : list (string * A) :=
  match m with
  | [] => [(k, v)]
  | (k', v') :: m' =>
      if decide (k' = k) then (k, v) :: m' else (k', v') :: mapSet k v m'
  end.

Definition mapGet {A} (k : string) (m : list (string * A)) : option A :=
  (snd ∘ snd) <$> list_find (λ kv, kv.1 = k) m.

Definition mapHas {A} (k : string) (m : list (string * A)) : bool :=
  bool_decide (is_Some (mapGet k m)).

(** [Set.add]. *)
Definition setAdd (k : string) (s : list string) : list string :=
  if bool_decide (k ∈ s) then s else s ++ [k].

(** [collectRowsById]: the rows that have an identifier, keyed by it
    (trimmed), each with its address; of two rows with one identifier the
    later one stays. *)
Definition collectRowsById (d : Doc) : list (string * (nat * Row)) :=
  foldl (λ m kr, match Js.asStringOrNull (rmRowId kr.2) with
                 | Some id => mapSet id kr m
                 | None => m
                 end)
        [] (imap pair (rowsOfDoc d)).

(** The forward walk from a deleted row: every identifier met is marked
    for removal; the walk stops at an identifier already marked and after
    one that no old row has.  Each round marks a new identifier, so the
    number of old rows (and one more round) bounds the walk. *)
Fixpoint walkChain (fuel : nat) (oldRows : list (string * (nat * Row)))
    (nextId : option string) (removeIds : list string) : list string :=
  match fuel, nextId with
  | S fuel', Some id =>
      if bool_decide (id ∈ removeIds) then removeIds
      else
        match mapGet id oldRows with
        | None => removeIds ++ [id]
        | Some (_, nextOld) =>
            walkChain fuel' oldRows (Js.asStringOrNull (rmLinkedNext nextOld))
              (removeIds ++ [id])
        end
  | _, _ => removeIds
  end.

(** One round of the loop over the deleted identifiers, on the pair of
    [removeIds] and [clearPrevIds]. *)
Definition markDeleted (oldRows newRows : list (string * (nat * Row)))
    (acc : list string * list string) (deletedId : string)
    : list string * list string :=
  match mapGet deletedId oldRows with
  | None => acc
  | Some (_, oldRow) =>
      let clearPrevIds :=
        match Js.asStringOrNull (rmLinkedPrev oldRow) with
        | Some prevId => if mapHas prevId newRows then setAdd prevId acc.2 else acc.2
        | None => acc.2
        end in
      (walkChain (S (length oldRows)) oldRows
         (Js.asStringOrNull (rmLinkedNext oldRow)) acc.1,
       clearPrevIds)
  end.

(** [collectRowStructure]: which rows, groups and tables go. *)
Definition rowWillBeDeleted (removeIds : list string) (r : Row) : bool :=
  match Js.asStringOrNull (rmRowId r) with
  | Some id => bool_decide (id ∈ removeIds)
  | None => false
  end.

Definition rowCountsAsKeep (removeIds : list string) (r : Row) : bool :=
  match Js.asStringOrNull (rmRowId r) with
  | Some id => negb (bool_decide (id ∈ removeIds))
  | None => true
  end.

Definition keepCount (removeIds : list string) (rs : list Row) : nat :=
  length (filter (λ r, rowCountsAsKeep removeIds r = true) rs).

Definition tableToDelete (removeIds : list string) (t : Table) : bool :=
  bool_decide (keepCount removeIds (rowsOfTable t) = 0%nat).

Definition groupToDelete (removeIds : list string) (rs : list Row) : bool :=
  bool_decide (keepCount removeIds rs = 0%nat).

(** For each row of the document, in document order: is its table or
    its group among those to delete? *)
Definition containerGoesOfChild (removeIds : list string) (tableGoes : bool)
    (c : TableChild) : list bool :=
  match c with
  | ChildRow _ => [tableGoes]
  | ChildGroup rs => replicate (length rs) (tableGoes || groupToDelete removeIds rs)
  end.

Definition containerGoesOfNode (removeIds : list string) (n : DocNode) : list bool :=
  match n with
  | DTable t =>
      tableChildren t ≫= containerGoesOfChild removeIds (tableToDelete removeIds t)
  | DBlock _ => []
  end.

Definition containerGoes (removeIds : list string) (d : Doc) (k : nat) : bool :=
  default false ((d ≫= containerGoesOfNode removeIds) !! k).

(** The first loop of the transaction: the rows named by [clearPrevIds]
    lose their [rmLinkedNext], unless their table or group goes. *)
Definition clearLinkedNext (removeIds : list string)
    (rowsById : list (string * (nat * Row))) (newDoc : Doc)
    (acc : Doc * nat) (prevId : string) : Doc * nat :=
  match mapGet prevId rowsById with
  | None => acc
  | Some (k, _) =>
      if containerGoes removeIds newDoc k then acc
      else (updateRow k (setLinkedNext None) acc.1, S acc.2)
  end.

(** The deletions, by their effect on the tree: the tables and groups
    without a row to keep go as a whole, and of the others the rows marked
    for removal. *)
Definition pruneChild (removeIds : list string) (c : TableChild) : list TableChild :=
  match c with
  | ChildRow r => if rowWillBeDeleted removeIds r then [] else [ChildRow r]
  | ChildGroup rs =>
      if groupToDelete removeIds rs then []
      else [ChildGroup (filter (λ r, rowWillBeDeleted removeIds r = false) rs)]
  end.

Definition pruneNode (removeIds : list string) (n : DocNode) : list DocNode :=
  match n with
  | DTable t =>
      if tableToDelete removeIds t then []
      else [DTable (mkTable (locked t) (tableChildren t ≫= pruneChild removeIds))]
  | DBlock _ => [n]
  end.

Definition pruneDoc (removeIds : list string) (d : Doc) : Doc :=
  d ≫= pruneNode removeIds.

(** The number of ranges the transaction deletes. *)
Definition deletionsOfChild (removeIds : list string) (c : TableChild) : nat :=
  match c with
  | ChildRow r => if rowWillBeDeleted removeIds r then 1 else 0
  | ChildGroup rs =>
      if groupToDelete removeIds rs then 1
      else length (filter (λ r, rowWillBeDeleted removeIds r = true) rs)
  end.

Definition deletionsOfNode (removeIds : list string) (n : DocNode) : nat :=
  match n with
  | DTable t =>
      if tableToDelete removeIds t then 1
      else sum_list (deletionsOfChild removeIds <$> tableChildren t)
  | DBlock _ => 0
  end.

Definition deletionsOf (removeIds : list string) (d : Doc) : nat :=
  sum_list (deletionsOfNode removeIds <$> d).

(** The host leaves one empty paragraph in a document whose last node
    is deleted. *)
Definition fillDoc (defaults : string → string) (d : Doc) : Doc :=
  match d with
  | [] => [DBlock (emptyParagraph defaults)]
  | _ => d
  end.

Definition deletedIdsOf (oldRows newRows : list (string * (nat * Row))) : list string :=
  filter (λ id, mapHas id newRows = false) (fst <$> oldRows).

Definition cleanupDeletedRowChains (s : Schema) (oldState newState : EditorState)
    : option Transaction :=
  let oldRows := collectRowsById (doc oldState) in
  if bool_decide (length oldRows = 0%nat) then None
  else
    let newRows := collectRowsById (doc newState) in
    let deletedIds := deletedIdsOf oldRows newRows in
    if bool_decide (length deletedIds = 0%nat) then None
    else
      let '(removeIds, clearPrevIds) :=
        foldl (markDeleted oldRows newRows) ([], []) deletedIds in
      if bool_decide (length removeIds = 0%nat)
         && bool_decide (length clearPrevIds = 0%nat)
      then None
      else
        let '(d1, n1) :=
          foldl (clearLinkedNext removeIds newRows (doc newState))
                (doc newState, 0%nat) clearPrevIds in
        let deletions := deletionsOf removeIds (doc newState) in
        if bool_decide (deletions = 0%nat) && bool_decide (n1 = 0%nat) then None
        else
          Some {| trDoc :=
                    if bool_decide (deletions = 0%nat) then d1
                    else fillDoc (defaultAttrs s) (pruneDoc removeIds d1);
                  trSelection := MappedSelection (selection newState);
                  rowCleanupMeta := true;
                  trSteps := n1 + deletions |}.

(** [appendTransaction] of the plugin. *)
Definition appendTransaction (s : Schema) (transactions : list Transaction)
    (oldState newState : EditorState) : option Transaction :=
  if existsb rowCleanupMeta transactions then None
  else if negb (existsb docChanged transactions) then None
  else cleanupDeletedRowChains s oldState newState.

(** ** The dispatch loop around the plugin *)

Section Host.
Context (s : Schema).
(** How the host resolves the selection a transaction sets. *)
Context (resolveSelection : EditorState → Transaction → Selection).

Definition applyInner (st : EditorState) (tr : Transaction) : EditorState :=
  mkState (trDoc tr) (resolveSelection st tr).

(** A dispatch loop that hands the plugin every transaction it has not
    seen yet, the ones it appended itself included, until it appends
    nothing.  (The host's own loop hands a plugin only the transactions
    appended after its last call; the loop here is the less favourable
    one.)  The result is the settled state with the appended
    transactions, or [None] when the rounds allowed did not suffice. *)
Fixpoint settle (rounds : nat) (pending : list Transaction)
    (oldState newState : EditorState) (appended : list Transaction)
    : option (EditorState * list Transaction) :=
  match rounds with
  | O => None
  | S rounds' =>
      match appendTransaction s pending oldState newState with
      | None => Some (newState, appended)
      | Some tr =>
          settle rounds' [tr] newState (applyInner newState tr) (appended ++ [tr])
      end
  end.

Definition dispatchEdit (rounds : nat) (st : EditorState) (root : Transaction)
    : option (EditorState * list Transaction) :=
  settle rounds [root] st (applyInner st root) [].

End Host.

(** The cell selection of the state, if any, lies on the grid of its
    table. *)
Definition onGridState (st : EditorState) : bool :=
  match selection st with
  | CellSelection ti a b =>
      match tableAt (doc st) ti with
      | Some t => TableMap.onGrid t a b
      | None => true
      end
  | _ => true
  end.

(** ** Sample documents *)

Definition sampleSchema : Schema := mkSchema true (λ _, "").

Definition para (text : string) : Block :=
  BText PARAGRAPH "" (if Js.isEmpty text then [] else [IText text]).

Definition plainCell (id text : string) : Cell :=
  mkCell TableCell (Some id) false None None 1 1 [para text].

Definition plainRow (cells : list Cell) : Row := mkRow None None None None cells.

Definition linkedRow (id : string) (prev next : option string) (cells : list Cell)
    : Row :=
  mkRow (Some id) prev next None cells.

Definition tableOf (isLocked : bool) (rows : list Row) : Table :=
  mkTable isLocked (ChildRow <$> rows).

(** A table of two rows and two columns, and the selection of its first
    row. *)
Definition sampleGrid (isLocked : bool) : Table :=
  tableOf isLocked
    [plainRow [plainCell "a" "one"; plainCell "b" "two"];
     plainRow [plainCell "c" ""; plainCell "d" "four"]].

Definition firstRowSelected (isLocked : bool) : EditorState :=
  mkState [DTable (sampleGrid isLocked)] (CellSelection 0 (0, 0) (0, 1))%nat.

Definition firstRowMerged (isLocked : bool) : EditorState :=
  mkState
    [DTable
       (tableOf isLocked
          [plainRow
             [mkCell TableCell (Some "a") true None None 2 1 [para "one"; para "two"];
              mkCell TableCell (Some "b") false (Some "a") (Some HideNone) 1 1 [para ""]];
           plainRow [plainCell "c" ""; plainCell "d" "four"]])]
    (CellSelection 0 (0, 0) (0, 1))%nat.

Definition singleCellSelected : EditorState :=
  mkState [DTable (sampleGrid false)] (CellSelection 0 (1, 1) (1, 1))%nat.




(** A cell of two paragraphs that is rendered higher than its row
    allows: the first paragraph ends above the allowed height, the second
    below it. *)
Definition twoParagraphCell : Cell :=
  mkCell TableCell (Some "c1") false None None 1 1 [para "first"; para "second"].

Definition overflowingCellDom : CellDom :=
  {| scrollHeight := 120; clientHeight := 100; maxHeightCss := None;
     contentBox := Some (120, 100); innerBottom := 100;
     blockBottoms := [60; 120]; blockHeights := [60; 60];
     caretPos := None; searchPos := None |}.

Definition overflowView (isLocked : bool) : View :=
  {| state := mkState [DTable (tableOf isLocked [plainRow [twoParagraphCell]])]
                (TextSelection 0 0);
     activeCellDom := Some overflowingCellDom;
     cellDomAt := λ _ _, None |}.

Definition overflowContext (isLocked : bool) : TableContext :=
  {| rowPos := 0; cellIndex := 0;
     rowNode := plainRow [twoParagraphCell];
     cellNode := twoParagraphCell;
     tableNode := Some (tableOf isLocked [plainRow [twoParagraphCell]]) |}.

Definition sampleIds : FreshIds := mkFresh "row-1" "row-2".

(** A chain of three rows A, B, C in one table, and the same table after
    an edit that deleted the middle row. *)
Definition chainRowA : Row := linkedRow "A" None (Some "B") [plainCell "a1" "alpha"].
Definition chainRowB : Row := linkedRow "B" (Some "A") (Some "C") [plainCell "b1" "beta"].
Definition chainRowC : Row := linkedRow "C" (Some "B") None [plainCell "c1" "gamma"].

Definition chainOfThree : EditorState :=
  mkState [DTable (tableOf false [chainRowA; chainRowB; chainRowC])] NoSelection.

Definition middleRowDeleted : EditorState :=
  mkState [DTable (tableOf false [chainRowA; chainRowC])] NoSelection.

(** The transaction of the edit itself: one step, no cleanup flag. *)
Definition middleRowDeletion : Transaction :=
  {| trDoc := doc middleRowDeleted;
     trSelection := MappedSelection NoSelection;
     rowCleanupMeta := false;
     trSteps := 1 |}.

Definition middleRowCleanup : Transaction :=
  {| trDoc := [DTable (tableOf false [setLinkedNext None chainRowA])];
     trSelection := MappedSelection NoSelection;
     rowCleanupMeta := true;
     trSteps := 2 |}.

(** ** Well-formed chains *)

(** An identifier as the engine writes it: not blank, and with no
    whitespace around it, so that [asStringOrNull] returns it as it is. *)
Definition wfId (x : string) : Prop := Js.asStringOrNull (Some x) = Some x.

(** The chains of a list of rows (the rows of a document, in document
    order) are well formed: the identifiers and pointers are as the engine
    writes them; no identifier occurs twice; a row with a successor has an
    identifier, the successor exists and points back; a row with a
    predecessor has an identifier, the predecessor exists and points
    forward; and the successor relation has a rank that grows along it, so
    that no chain runs in a cycle and every chain has one root. *)
Record ChainOk (rs : list Row) : Prop := mkChainOk {
  chain_wf : ∀ r, r ∈ rs →
    (∀ x, rmRowId r = Some x → wfId x)
    ∧ (∀ x, rmLinkedPrev r = Some x → wfId x)
    ∧ (∀ x, rmLinkedNext r = Some x → wfId x);
  chain_unique : NoDup (omap rmRowId rs);
  chain_next : ∀ r x, r ∈ rs → rmLinkedNext r = Some x →
    is_Some (rmRowId r)
    ∧ ∃ r', r' ∈ rs ∧ rmRowId r' = Some x ∧ rmLinkedPrev r' = rmRowId r;
  chain_prev : ∀ r' x, r' ∈ rs → rmLinkedPrev r' = Some x →
    is_Some (rmRowId r')
    ∧ ∃ r, r ∈ rs ∧ rmRowId r = Some x ∧ rmLinkedNext r = rmRowId r';
  chain_acyclic : ∃ rank : string → nat, ∀ r a x, r ∈ rs →
    rmRowId r = Some a → rmLinkedNext r = Some x → (rank a < rank x)%nat;
}.


(** A row without chain attributes. *)
Definition linkFree (r : Row) : Prop :=
  rmRowId r = None ∧ rmLinkedPrev r = None ∧ rmLinkedNext r = None.

Definition sameLinks (r r' : Row) : Prop :=
  rmRowId r = rmRowId r' ∧ rmLinkedPrev r = rmLinkedPrev r'
  ∧ rmLinkedNext r = rmLinkedNext r'.

(** An edit of the user, as far as rows go: every row after the edit is
    a row from before with its chain attributes, or a row without chain
    attributes; and no identifier occurs twice.  Rows may go, come and
    change their content. *)
Definition UserEdit (before after : list Row) : Prop :=
  (∀ r', r' ∈ after → linkFree r' ∨ ∃ r, r ∈ before ∧ sameLinks r r')
  ∧ NoDup (omap rmRowId after).






(** The content of one cell of a row replaced. *)
Definition setCellAt (ci : nat) (bs : list Block) (r : Row) : Row :=
  setRowCells (alter (setCellContent bs) ci (rowCells r)) r.

(** The rows after a cleanup that removes the rows named in [removeIds]
    and clears the pointer of the rows named in [clearPrevIds]. *)
Definition cleanRows (removeIds clearPrevIds : list string) (rs : list Row)
    : list Row :=
  (λ r, match rmRowId r with
        | Some x => if bool_decide (x ∈ clearPrevIds) then setLinkedNext None r else r
        | None => r
        end)
  <$> filter (λ r, rowWillBeDeleted removeIds r = false) rs.

(** The merge-back scenario: a row R whose continuation row N holds one
    block, measured at 40 pixels, while the cell of R has 60 pixels
    free. *)
Definition scenarioRowR : Row := linkedRow "R" None (Some "N") [plainCell "r1" "text"].
Definition scenarioRowN : Row := linkedRow "N" (Some "R") None [plainCell "n1" "more"].

Definition scenarioCellDom : CellDom :=
  {| scrollHeight := 40; clientHeight := 100; maxHeightCss := Some 100;
     contentBox := Some (40, 100); innerBottom := 100;
     blockBottoms := [40]; blockHeights := [40];
     caretPos := None; searchPos := None |}.

Definition scenarioView : View :=
  {| state := mkState [DTable (tableOf false [scenarioRowR; scenarioRowN])]
                (TextSelection 0 0);
     activeCellDom := Some scenarioCellDom;
     cellDomAt := λ _ _, Some scenarioCellDom |}.


Definition scenarioResult : Transaction :=
  {| trDoc :=
       [DTable
          (tableOf false
             [linkedRow "R" None None
                [mkCell TableCell (Some "r1") false None None 1 1
                   [para "text"; para "more"]]])];
     trSelection := MappedSelection (TextSelection 0 0);
     rowCleanupMeta := true;
     trSteps := 4 |}.


(** The transaction of the paginate step on [overflowView false]. *)
Definition overflowResult : Transaction :=
  {| trDoc :=
       [DTable
          (tableOf false
             [mkRow (Some "row-1") None (Some "row-2") None
                [mkCell TableCell (Some "c1") false None None 1 1 [para "first"]];
              mkRow (Some "row-2") (Some "row-1") None None
                [mkCell TableCell None false None None 1 1 [para "second"]]])];
     trSelection := CaretInCell 1 0;
     rowCleanupMeta := false;
     trSteps := 5 |}.

(** The same overflowing cell in a row that has a continuation row with
    content of its own. *)
Definition linkedOverflowRow : Row := linkedRow "O" None (Some "N") [twoParagraphCell].
Definition linkedContinuationRow : Row :=
  linkedRow "N" (Some "O") None [plainCell "c2" "old"].



(** The successor and the predecessor that the rows collected before an
    edit record for an identifier. *)
Definition recordedNext (oldRows : list (string * (nat * Row))) (id : string)
    : option string :=
  mapGet id oldRows ≫= λ kr, Js.asStringOrNull (rmLinkedNext kr.2).

Definition recordedPrev (oldRows : list (string * (nat * Row))) (id : string)
    : option string :=
  mapGet id oldRows ≫= λ kr, Js.asStringOrNull (rmLinkedPrev kr.2).


(** [collectRowsById] on the rows of a document. *)
Definition rowsById (rows : list Row) : list (string * (nat * Row)) :=
  foldl (λ m kr, match Js.asStringOrNull (rmRowId kr.2) with
                 | Some id => mapSet id kr m
                 | None => m
                 end)
        [] (imap pair rows).

(** What the loop over the deleted identifiers [ds] establishes for the
    identifiers to remove and the identifiers whose pointer is cleared:
    the first are closed under the recorded successor, hold the successor
    of every deleted identifier and nothing but successors of deleted or
    marked identifiers; the second are the recorded predecessors of the
    deleted identifiers that the new document still has. *)
Definition MarksOk (oldRows newRows : list (string * (nat * Row)))
    (ds removeIds clearPrevIds : list string) : Prop :=
  (∀ y z, y ∈ removeIds → recordedNext oldRows y = Some z → z ∈ removeIds)
  ∧ (∀ d z, d ∈ ds → recordedNext oldRows d = Some z → z ∈ removeIds)
  ∧ (∀ y, y ∈ removeIds →
       ∃ a, recordedNext oldRows a = Some y ∧ (a ∈ ds ∨ a ∈ removeIds))
  ∧ (∀ p, p ∈ clearPrevIds →
       mapHas p newRows = true ∧ ∃ d, d ∈ ds ∧ recordedPrev oldRows d = Some p)
  ∧ (∀ d p, d ∈ ds → recordedPrev oldRows d = Some p → mapHas p newRows = true →
       p ∈ clearPrevIds).

(** The row at address [j] after the first loop of the cleanup
    transaction: it loses its pointer when its identifier is in
    [clearPrevIds] and neither its table nor its group goes. *)
Definition clearWhere (removeIds clearPrevIds : list string) (newDoc : Doc)
    (j : nat) (r : Row) : Row :=
  if match rmRowId r with
     | Some p => bool_decide (p ∈ clearPrevIds)
     | None => false
     end && negb (containerGoes removeIds newDoc j)
  then setLinkedNext None r else r.

(** The sample table with the origin flag set on an ordinary cell of
    its first row (spans of one), the selection of that row, and the state
    after the merge command. *)
Definition flaggedCell : Cell :=
  mkCell TableCell (Some "b") true None None 1 1 [para "two"].

Definition flaggedRowSelected : EditorState :=
  mkState
    [DTable
       (tableOf false
          [plainRow [plainCell "a" "one"; flaggedCell];
           plainRow [plainCell "c" ""; plainCell "d" "four"]])]
    (CellSelection 0 (0, 0) (0, 1))%nat.

Definition flaggedRowMerged : EditorState :=
  mkState
    [DTable
       (tableOf false
          [plainRow
             [mkCell TableCell (Some "a") true None None 2 1 [para "one"; para "two"];
              mkCell TableCell (Some "b") false (Some "a") (Some HideNone) 1 1 [para ""]];
           plainRow [plainCell "c" ""; plainCell "d" "four"]])]
    (CellSelection 0 (0, 0) (0, 1))%nat.

(** The merged first row of the sample table, after the unmerge
    command. *)
Definition firstRowUnmerged (isLocked : bool) : EditorState :=
  mkState
    [DTable
       (tableOf isLocked
          [plainRow
             [mkCell TableCell (Some "a") false None None 1 1 [para "one"; para "two"];
              plainCell "b" ""];
           plainRow [plainCell "c" ""; plainCell "d" "four"]])]
    (CellSelection 0 (0, 0) (0, 1))%nat.

(** An overflowing cell in an unlocked table whose row continues in a
    row of a locked table, and the transaction of the paginate step. *)
Definition lockedContinuationView : View :=
  {| state := mkState [DTable (tableOf false [linkedOverflowRow]);
                       DTable (tableOf true [linkedContinuationRow])]
                (TextSelection 0 0);
     activeCellDom := Some overflowingCellDom;
     cellDomAt := λ _ _, None |}.

Definition lockedContinuationResult : Transaction :=
  {| trDoc :=
       [DTable
          (tableOf false
             [linkedRow "O" None (Some "N")
                [mkCell TableCell (Some "c1") false None None 1 1 [para "first"]]]);
        DTable
          (tableOf true
             [linkedRow "N" (Some "O") None
                [mkCell TableCell (Some "c2") false None None 1 1
                   [para "second"; para "old"]]])];
     trSelection := CaretInCell 1 0;
     rowCleanupMeta := false;
     trSteps := 2 |}.

(** The merge-back scenario with the continuation row in a locked
    table, and the transaction of the merge-back step. *)
Definition lockedMergeBackView : View :=
  {| state := mkState [DTable (tableOf false [scenarioRowR]);
                       DTable (tableOf true [scenarioRowN; plainRow [plainCell "x" "y"]])]
                (TextSelection 0 0);
     activeCellDom := Some scenarioCellDom;
     cellDomAt := λ _ _, Some scenarioCellDom |}.

Definition lockedMergeBackResult : Transaction :=
  {| trDoc :=
       [DTable
          (tableOf false
             [linkedRow "R" None None
                [mkCell TableCell (Some "r1") false None None 1 1
                   [para "text"; para "more"]]]);
        DTable (tableOf true [plainRow [plainCell "x" "y"]])];
     trSelection := MappedSelection (TextSelection 0 0);
     rowCleanupMeta := true;
     trSteps := 4 |}.












(** ** Nodes of a cell *)

(** The nodes a [descendants] scan visits below a cell: text nodes,
    leaves, and nodes with content. *)
Inductive NodeKind :=
| TextNode (text : string)
| LeafNode (name : string)
| ParentNode (name : string).

Definition inlineKind (i : Inline) : NodeKind :=
  match i with
  | IText s => TextNode s
  | ILeaf n => LeafNode n
  end.

Fixpoint blockNodes (b : Block) : list NodeKind :=
  match b with
  | BText n _ body => ParentNode n :: (inlineKind <$> body)
  | BLeaf n => [LeafNode n]
  | BNode n kids => ParentNode n :: foldr (λ k acc, blockNodes k ++ acc) [] kids
  end.

Definition cellNodes (c : Cell) : list NodeKind :=
  foldr (λ k acc, blockNodes k ++ acc) [] (cellContent c).

(** A node that does not count as content: a hard break, or a node with
    content of its own. *)
Definition isBreakOrParent (k : NodeKind) : bool :=
  match k with
  | TextNode _ => false
  | LeafNode n => bool_decide (n = HARD_BREAK) || bool_decide (n = PARAGRAPH)
  | ParentNode _ => true
  end.

(** The emptiness of a cell in the words of the specification: no text
    but whitespace, and no inline content other than text and line
    breaks. *)
Definition specVisuallyEmpty (c : Cell) : bool :=
  isBlank (blocksText (cellContent c))
  && forallb (λ k, match k with
                   | LeafNode n => bool_decide (n = HARD_BREAK)
                   | _ => true
                   end) (cellNodes c).

(** A paragraph without content. *)
Definition isEmptyParagraph (b : Block) : Prop :=
  blockName b = PARAGRAPH ∧ blockContentSize b = 0%nat.

Global Instance isEmptyParagraph_dec b : Decision (isEmptyParagraph b).
Proof. unfold isEmptyParagraph. apply _. Defined.

(** Two cells that hold whitespace only, side by side, the selection of
    both, and the state after the merge command. *)
Definition whitespaceCell (id : string) : Cell :=
  mkCell TableCell (Some id) false None None 1 1 [para " "].

Definition whitespaceRowSelected : EditorState :=
  mkState [DTable (tableOf false [plainRow [whitespaceCell "a"; whitespaceCell "b"]])]
    (CellSelection 0 (0, 0) (0, 1))%nat.

Definition whitespaceRowMerged : EditorState :=
  mkState
    [DTable
       (tableOf false
          [plainRow
             [mkCell TableCell (Some "a") true None None 2 1 [para " "; para " "];
              mkCell TableCell (Some "b") false (Some "a") (Some HideNone) 1 1
                [para ""]]])]
    (CellSelection 0 (0, 0) (0, 1))%nat.

(** A table of two rows and two columns that holds, next to a cell with
    text, a cell with an empty paragraph before its text, an empty cell and
    a cell of whitespace; the selection of all four and the state after the
    merge command. *)
Definition mixedGrid : Table :=
  tableOf false
    [plainRow
       [plainCell "a" "one";
        mkCell TableCell (Some "b") false None None 1 1 [para ""; para "two"]];
     plainRow [plainCell "c" ""; whitespaceCell "d"]].

Definition mixedGridSelected : EditorState :=
  mkState [DTable mixedGrid] (CellSelection 0 (0, 0) (1, 1))%nat.

Definition mixedGridMerged : EditorState :=
  mkState
    [DTable
       (tableOf false
          [plainRow
             [mkCell TableCell (Some "a") true None None 2 2
                [para "one"; para "two"; para " "];
              mkCell TableCell (Some "b") false (Some "a") (Some HideNone) 1 1 [para ""]];
           plainRow
             [mkCell TableCell (Some "c") false (Some "a") (Some HideHidden) 1 1 [para ""];
              mkCell TableCell (Some "d") false (Some "a") (Some HideHidden) 1 1
                [para ""]]])]
    (CellSelection 0 (0, 0) (1, 1))%nat.

(** ** Row commands of the merge extension (TableMergePlus.ts)

    [deleteRowPlus] and [insertRowAfterPlus] work through the host: they
    call its row commands, which are parameters here, and they address
    cells by positions taken before their own dispatches.  A run in which
    such a position no longer names its cell, or in which the host leaves a
    table the grid map does not cover, ends in [OffGrid]. *)



(** [Number(x || 1)] on a span. *)
Definition orOne (z : Z) : Z := if decide (z = 0)%Z then 1%Z else z.



Section RowCommands.
Import TableMap.
Context (s : Schema).
(** The host's [deleteRow] and [addRowAfter], run on the editor's
    state. *)
Context (hostDeleteRow hostAddRowAfter : EditorState → EditorState).







(** The merges [insertRowAfterPlus] extends: first the scan of the
    current row. *)
Definition extendsPast (currentRowIndex : nat) (r : nat) (rowspan : Z) : bool :=
  bool_decide (Z.of_nat currentRowIndex + 1 < Z.of_nat r + rowspan)%Z.

Definition isFlaggedOriginPast (originId : string) (currentRowIndex : nat)
    (x : nat * nat * Cell) : Prop :=
  rmCellId x.2 = Some originId ∧ rmMergeOrigin x.2 = true
  ∧ extendsPast currentRowIndex x.1.1 (orOne (rmRowspan x.2)) = true.

Global Instance isFlaggedOriginPast_dec o k x : Decision (isFlaggedOriginPast o k x).
Proof. unfold isFlaggedOriginPast. apply _. Defined.





Definition isFlaggedOrigin (originId : string) (x : nat * nat * Cell) : Prop :=
  rmCellId x.2 = Some originId ∧ rmMergeOrigin x.2 = true.

Global Instance isFlaggedOrigin_dec o x : Decision (isFlaggedOrigin o x).
Proof. unfold isFlaggedOrigin. apply _. Defined.








End RowCommands.











(** The conditions of [ChainOk] for a given rank, in a form that can be
    decided on a concrete list of rows. *)
Definition whenSome {A} (P : A → Prop) (o : option A) : Prop :=
  match o with Some x => P x | None => True end.

Global Instance whenSome_dec {A} (P : A → Prop) `{∀ x, Decision (P x)} o :
  Decision (whenSome P o).
Proof. destruct o; simpl; apply _. Defined.

Global Instance wfId_dec x : Decision (wfId x).
Proof. unfold wfId. apply _. Defined.

Definition chainCheck (rank : string → nat) (rs : list Row) : Prop :=
  Forall (λ r, whenSome wfId (rmRowId r) ∧ whenSome wfId (rmLinkedPrev r)
               ∧ whenSome wfId (rmLinkedNext r)) rs
  ∧ NoDup (omap rmRowId rs)
  ∧ Forall (λ r, whenSome (λ x, is_Some (rmRowId r)
                               ∧ Exists (λ r', rmRowId r' = Some x
                                               ∧ rmLinkedPrev r' = rmRowId r) rs)
                          (rmLinkedNext r)) rs
  ∧ Forall (λ r', whenSome (λ x, is_Some (rmRowId r')
                                ∧ Exists (λ r, rmRowId r = Some x
                                               ∧ rmLinkedNext r = rmRowId r') rs)
                           (rmLinkedPrev r')) rs
  ∧ Forall (λ r, whenSome (λ a, whenSome (λ x, rank a < rank x)%nat (rmLinkedNext r))
                          (rmRowId r)) rs.

Global Instance chainCheck_dec rank rs : Decision (chainCheck rank rs).
Proof. unfold chainCheck. apply _. Defined.

(** A rank for sample chains: the position of an identifier in a list. *)
Definition rankIn (ids : list string) (x : string) : nat :=
  default 0%nat (fst <$> list_find (λ y, y = x) ids).














(** The identifier [x] is downstream of the identifier [d] in the rows
    [rs]: it is reached from [d] along [rmLinkedNext]. *)
Inductive Downstream (rs : list Row) (d : string) : string → Prop :=
| down_next r x :
    r ∈ rs → rmRowId r = Some d → rmLinkedNext r = Some x → Downstream rs d x
| down_step y r x :
    Downstream rs d y → r ∈ rs → rmRowId r = Some y → rmLinkedNext r = Some x →
    Downstream rs d x.

(** Two chains, a row without identifier, and the same rows after an
    edit that deleted the row B. *)
Definition cascadeRows : list Row :=
  [linkedRow "A" None (Some "B") [plainCell "a1" "alpha"];
   linkedRow "B" (Some "A") (Some "C") [plainCell "b1" "beta"];
   linkedRow "C" (Some "B") (Some "D") [plainCell "c1" "gamma"];
   plainRow [plainCell "p1" "plain"];
   linkedRow "D" (Some "C") None [plainCell "d1" "delta"];
   linkedRow "E" None (Some "F") [plainCell "e1" "epsilon"];
   linkedRow "F" (Some "E") None [plainCell "f1" "phi"]].

Definition cascadeOld : EditorState :=
  mkState [DTable (tableOf false cascadeRows)] NoSelection.

Definition cascadeNew : EditorState :=
  mkState [DTable (tableOf false (delete 1%nat cascadeRows))] NoSelection.






(** The same with a continuation row of three cells before a last row of
    one cell: the position taken for the row R lies beyond the end of the
    document once N is gone. *)
Definition shortTailRows : list Row :=
  [linkedRow "N" (Some "R") None
     [plainCell "n1" ""; plainCell "n2" ""; plainCell "n3" ""];
   linkedRow "R" None (Some "N") [plainCell "r1" ""]].

Definition shortTailView : View :=
  {| state := mkState [DTable (tableOf false shortTailRows)] (TextSelection 1 0);
     activeCellDom := Some scenarioCellDom;
     cellDomAt := λ _ _, Some scenarioCellDom |}.

(** The same with a second chain, X and Y, after the row R: once N is
    gone the row X starts where R did, and it is X that is rewritten. *)
Definition crossedRows : list Row :=
  [linkedRow "N" (Some "R") None [plainCell "n1" ""];
   linkedRow "R" None (Some "N") [plainCell "r1" ""];
   linkedRow "X" None (Some "Y") [plainCell "x1" "one"];
   linkedRow "Y" (Some "X") None [plainCell "y1" "two"]].

Definition crossedView : View :=
  {| state := mkState [DTable (tableOf false crossedRows)] (TextSelection 1 0);
     activeCellDom := Some scenarioCellDom;
     cellDomAt := λ _ _, Some scenarioCellDom |}.

Definition crossedResult : Transaction :=
  {| trDoc :=
       [DTable
          (tableOf false
             [linkedRow "R" None (Some "N") [plainCell "r1" ""];
              linkedRow "X" None None [plainCell "x1" "one"];
              linkedRow "Y" (Some "X") None [plainCell "y1" "two"]])];
     trSelection := MappedSelection (TextSelection 1 0);
     rowCleanupMeta := true;
     trSteps := 2 |}.

(** * Properties *)

(** ** Chains of sample rows *)

Lemma chainCheck_ok rank rs : chainCheck rank rs → ChainOk rs.
Proof.
  intros (Hwf & Hnd & Hnext & Hprev & Hrank).
  rewrite Forall_forall in Hwf, Hnext, Hprev, Hrank. split.
  - intros r Hr. destruct (Hwf r Hr) as (H1 & H2 & H3).
    repeat split; intros x Hx; rewrite Hx in *; done.
  - done.
  - intros r x Hr Hx. specialize (Hnext r Hr). rewrite Hx in Hnext.
    destruct Hnext as [Hid Hex]. split; [done|].
    apply Exists_exists in Hex as (r' & Hr' & H1 & H2). by exists r'.
  - intros r x Hr Hx. specialize (Hprev r Hr). rewrite Hx in Hprev.
    destruct Hprev as [Hid Hex]. split; [done|].
    apply Exists_exists in Hex as (r' & Hr' & H1 & H2). by exists r'.
  - exists rank. intros r a x Hr Ha Hx. specialize (Hrank r Hr).
    by rewrite Ha, Hx in Hrank.
Qed.


(** ** Rows of a rewritten document *)

Section SpliceFacts.
Context (f : nat → Row → list Row).

Lemma spliceList_app i l1 l2 :
  spliceList f i (l1 ++ l2) = spliceList f i l1 ++ spliceList f (i + length l1) l2.
Proof.
  revert i; induction l1 as [|r l1 IH]; intros i; simpl.
  - by rewrite Nat.add_0_r.
  - rewrite IH, <- app_assoc. do 3 f_equal. lia.
Qed.

Lemma rowsOfChildren_app cs1 cs2 :
  rowsOfChildren (cs1 ++ cs2) = rowsOfChildren cs1 ++ rowsOfChildren cs2.
Proof. unfold rowsOfChildren. apply bind_app. Qed.

Lemma rowsOfChildren_rows l : rowsOfChildren (ChildRow <$> l) = l.
Proof.
  unfold rowsOfChildren. induction l as [|r l IH]; csimpl; [done|].
  by rewrite IH.
Qed.

Lemma rowsOfChildren_splice i cs :
  rowsOfChildren (spliceChildren f i cs) = spliceList f i (rowsOfChildren cs).
Proof.
  revert i; induction cs as [|c cs IH]; intros i; [done|].
  simpl. rewrite rowsOfChildren_app, IH.
  change (rowsOfChildren (c :: cs)) with (rowsOfChild c ++ rowsOfChildren cs).
  rewrite spliceList_app. f_equal.
  destruct c as [r|rs]; simpl.
  - by rewrite rowsOfChildren_rows, app_nil_r.
  - unfold rowsOfChildren. simpl. by rewrite app_nil_r.
Qed.

Lemma rowsOfTable_splice i t :
  rowsOfTable (spliceTable f i t) = spliceList f i (rowsOfTable t).
Proof. apply rowsOfChildren_splice. Qed.

Lemma rowsOfDoc_spliceFrom i d :
  rowsOfDoc (spliceFrom f i d) = spliceList f i (rowsOfDoc d).
Proof.
  revert i; induction d as [|n d IH]; intros i; [done|].
  destruct n as [t|b]; simpl.
  - change (rowsOfDoc (DTable (spliceTable f i t) :: spliceFrom f (i + length (rowsOfTable t)) d))
      with (rowsOfTable (spliceTable f i t) ++ rowsOfDoc (spliceFrom f (i + length (rowsOfTable t)) d)).
    change (rowsOfDoc (DTable t :: d)) with (rowsOfTable t ++ rowsOfDoc d).
    by rewrite rowsOfTable_splice, IH, spliceList_app.
  - change (rowsOfDoc (DBlock b :: spliceFrom f i d)) with (rowsOfDoc (spliceFrom f i d)).
    change (rowsOfDoc (DBlock b :: d)) with (rowsOfDoc d). apply IH.
Qed.

Lemma rowsOfDoc_spliceDoc d : rowsOfDoc (spliceDoc f d) = spliceList f 0 (rowsOfDoc d).
Proof. apply rowsOfDoc_spliceFrom. Qed.
End SpliceFacts.

Lemma spliceList_single (g : nat → Row → Row) i l :
  spliceList (λ j r, [g j r]) i l = imap (λ j, g (i + j)%nat) l.
Proof.
  revert i; induction l as [|r l IH]; intros i; simpl; [done|].
  rewrite Nat.add_0_r. f_equal. rewrite IH. apply imap_ext. intros j x _. simpl.
  f_equal. lia.
Qed.

Lemma spliceList_id (f : nat → Row → list Row) i l :
  (∀ j r, (i ≤ j)%nat → f j r = [r]) → spliceList f i l = l.
Proof.
  revert i; induction l as [|r l IH]; intros i Hf; simpl; [done|].
  rewrite Hf by lia. simpl. f_equal. apply IH. intros; apply Hf; lia.
Qed.

Lemma spliceList_alter (g : Row → Row) t i l :
  (i ≤ t)%nat →
  spliceList (λ j r, if decide (j = t) then [g r] else [r]) i l = alter g (t - i)%nat l.
Proof.
  revert i; induction l as [|r l IH]; intros i Hi; simpl; [done|].
  destruct (decide (i = t)) as [->|Hne].
  - rewrite Nat.sub_diag. simpl. f_equal. apply spliceList_id.
    intros j x Hj. destruct (decide (j = t)); [lia|done].
  - destruct (t - i)%nat as [|m] eqn:Hm; [lia|]. simpl. f_equal.
    rewrite IH by lia. f_equal. lia.
Qed.



Lemma rowsOfDoc_updateRow k g d : rowsOfDoc (updateRow k g d) = alter g k (rowsOfDoc d).
Proof.
  unfold updateRow. rewrite rowsOfDoc_spliceDoc, spliceList_alter by lia.
  by rewrite Nat.sub_0_r.
Qed.



(** ** The grid of a rewritten table *)

Import TableMap.

Lemma rowsOfTable_mapTableCells f t :
  rowsOfTable (mapTableCells f t)
  = imap (λ r row, setRowCells (imap (f r) (rowCells row)) row) (rowsOfTable t).
Proof.
  unfold mapTableCells.
  rewrite (rowsOfTable_splice (λ r row, [setRowCells (imap (f r) (rowCells row)) row])).
  by rewrite (spliceList_single (λ r row, setRowCells (imap (f r) (rowCells row)) row)).
Qed.

Lemma cellAt_mapTableCells f t r c :
  cellAt (mapTableCells f t) r c = f r c <$> cellAt t r c.
Proof.
  unfold cellAt. rewrite rowsOfTable_mapTableCells, list_lookup_imap.
  destruct (rowsOfTable t !! r) as [row|]; simpl; [|done].
  by rewrite list_lookup_imap.
Qed.


Lemma tableAt_updateTable ti g d :
  tableAt (updateTable ti g d) ti = g <$> tableAt d ti.
Proof.
  unfold tableAt, updateTable. rewrite list_lookup_alter.
  destruct (d !! ti) as [[t|b]|]; simpl; by case_decide.
Qed.

Lemma tableAt_updateTable_ne ti tj g d :
  ti ≠ tj → tableAt (updateTable ti g d) tj = tableAt d tj.
Proof.
  intros Hne. unfold tableAt, updateTable. by rewrite list_lookup_alter_ne.
Qed.

Lemma inRect_coords rc r c : inRect rc r c = true ↔ (r, c) ∈ coords rc.
Proof.
  unfold inRect, coords, rectHeight, rectWidth.
  rewrite andb_true_iff, !bool_decide_eq_true.
  rewrite list_elem_of_bind. split.
  - intros [Hr Hc]. exists r. split.
    + apply list_elem_of_bind. exists c. split; [by apply list_elem_of_singleton|].
      apply elem_of_seq. lia.
    + apply elem_of_seq. lia.
  - intros (r' & Hin & Hr). apply list_elem_of_bind in Hin as (c' & Hin & Hc).
    apply elem_of_seq in Hr, Hc. apply list_elem_of_singleton in Hin. simplify_eq. lia.
Qed.

Lemma rectBetween_nonempty a b :
  (0 < rectWidth (rectBetween a b))%nat ∧ (0 < rectHeight (rectBetween a b))%nat.
Proof. unfold rectWidth, rectHeight, rectBetween. simpl. lia. Qed.

Lemma collectCells_lookup t rc cells r c :
  Merge.collectCells t rc = Some cells → inRect rc r c = true →
  ∃ n, cellAt t r c = Some n ∧ (r, c, n) ∈ cells.
Proof.
  unfold Merge.collectCells. intros Hm Hin.
  apply mapM_Some in Hm. apply inRect_coords in Hin.
  apply list_elem_of_lookup in Hin as [i Hi].
  destruct (Forall2_lookup_l _ _ _ _ _ Hm Hi) as ([[r' c'] n] & Hk & Hf).
  simpl in Hf. destruct (cellAt t r c) as [n'|] eqn:Hc; simplify_eq/=.
  exists n. split; [done|]. by eapply list_elem_of_lookup_2.
Qed.

Lemma collectCells_elem t rc cells r c n :
  Merge.collectCells t rc = Some cells → (r, c, n) ∈ cells →
  cellAt t r c = Some n ∧ inRect rc r c = true.
Proof.
  unfold Merge.collectCells. intros Hm Hin.
  apply mapM_Some in Hm. apply list_elem_of_lookup in Hin as [i Hi].
  destruct (Forall2_lookup_r _ _ _ _ _ Hm Hi) as ([r' c'] & Hk & Hf).
  simpl in Hf. destruct (cellAt t r' c') as [n'|] eqn:Hc; simplify_eq/=.
  split; [done|]. apply inRect_coords. by eapply list_elem_of_lookup_2.
Qed.

(** ** The merge command *)

(** What a successful merge did. *)
Lemma mergeInternal_true s st st' :
  Merge.mergeInternal s st = Returned true st' →
  ∃ ti a b t cells i origin originId empty,
    selection st = CellSelection ti a b
    ∧ tableAt (doc st) ti = Some t
    ∧ onGrid t a b = true
    ∧ (bool_decide (rectWidth (rectBetween a b) = 1%nat)
       && bool_decide (rectHeight (rectBetween a b) = 1%nat)) = false
    ∧ Merge.collectCells t (rectBetween a b) = Some cells
    ∧ existsb (λ x, Merge.isCovered x.2 || Merge.isMergedOrigin x.2) cells = false
    ∧ list_find (Merge.isTopLeft (rectBetween a b)) cells
      = Some (i, (top (rectBetween a b), left (rectBetween a b), origin))
    ∧ rmCellId origin = Some originId
    ∧ Js.isEmpty originId = false
    ∧ Merge.emptyCellContent s = Some empty
    ∧ st' = mkState
              (updateTable ti
                 (mapTableCells
                    (Merge.mergeRewrite (rectBetween a b)
                       (Merge.mergedOriginOf origin
                          (rectWidth (rectBetween a b)) (rectHeight (rectBetween a b))
                          (let blocks := Merge.mergedBlocksOf (rectBetween a b) origin cells in
                           if bool_decide (length blocks = 0%nat)
                           then [BText PARAGRAPH (defaultAttrs s PARAGRAPH) []]
                           else blocks))
                       originId empty))
                 (doc st))
              (selection st).
Proof.
  unfold Merge.mergeInternal. intros H.
  destruct (selection st) as [ti a b| |] eqn:Hsel; try done.
  destruct (tableAt (doc st) ti) as [t|] eqn:Ht; try done.
  destruct (onGrid t a b) eqn:Hg; simpl in H; try done.
  destruct (bool_decide (rectWidth (rectBetween a b) = 1%nat)
            && bool_decide (rectHeight (rectBetween a b) = 1%nat)) eqn:H11; try done.
  destruct (Merge.collectCells t (rectBetween a b)) as [cells|] eqn:Hc; try done.
  destruct (existsb _ cells) eqn:Hov; try done.
  destruct (list_find _ cells) as [[i [[r0 c0] origin]]|] eqn:Hf; try done.
  destruct (rmCellId origin) as [originId|] eqn:Hid; try done.
  destruct (Js.isEmpty originId) eqn:He; try done.
  destruct (bool_decide _ && negb (hasParagraph s)) eqn:Hp; try done.
  destruct (Merge.emptyCellContent s) as [empty|] eqn:Hem; try done.
  apply list_find_Some in Hf as Hf'. destruct Hf' as (_ & [Hr0 Hc0] & _).
  simpl in Hr0, Hc0. subst r0 c0.
  injection H as <-. by exists ti, a, b, t, cells, i, origin, originId, empty.
Qed.






(** The rectangle in row-major order starts at its top-left corner,
    which does not occur again. *)
Lemma coords_head rc :
  (0 < rectWidth rc)%nat → (0 < rectHeight rc)%nat →
  ∃ rest, coords rc = (top rc, left rc) :: rest
          ∧ ∀ p, p ∈ rest → p ≠ (top rc, left rc).
Proof.
  unfold coords. intros Hw Hh.
  destruct (rectWidth rc) as [|w]; [lia|]. destruct (rectHeight rc) as [|h]; [lia|].
  cbn [seq]. rewrite !bind_cons. cbn [app].
  eexists. split; [reflexivity|].
  intros [r c] Hin Heq. injection Heq as -> ->.
  apply elem_of_app in Hin as [Hin|Hin].
  - apply list_elem_of_bind in Hin as (c' & Hin & Hc).
    apply list_elem_of_singleton in Hin. apply elem_of_seq in Hc. simplify_eq. lia.
  - apply list_elem_of_bind in Hin as (r' & Hin & Hr).
    apply list_elem_of_bind in Hin as (c' & Hin & Hc).
    apply list_elem_of_singleton in Hin. apply elem_of_seq in Hr. simplify_eq. lia.
Qed.

(** The blocks a cell gives to a merge, by its grid position. *)
Lemma mergedBlocksOf_coords t rc cells i origin :
  (0 < rectWidth rc)%nat → (0 < rectHeight rc)%nat →
  Merge.collectCells t rc = Some cells →
  list_find (Merge.isTopLeft rc) cells = Some (i, (top rc, left rc, origin)) →
  Merge.mergedBlocksOf rc origin cells
  = coords rc ≫= λ p,
      match cellAt t p.1 p.2 with
      | Some n => if isVisuallyEmptyCell n then [] else meaningfulBlocksFromCell n
      | None => []
      end.
Proof.
  intros Hw Hh Hc Hf. unfold Merge.collectCells in Hc. apply mapM_Some in Hc.
  destruct (coords_head _ Hw Hh) as (rest & Hco & Hrest).
  rewrite Hco in Hc |- *. clear Hco Hw Hh.
  remember (top rc) as tp eqn:Htp. remember (left rc) as lf eqn:Hlf.
  apply Forall2_cons_inv_l in Hc as (x & cells' & Hx & Hcs & ->). cbn [fst snd] in Hx.
  destruct (cellAt t tp lf) as [n|] eqn:Hn;
    cbn [mbind option_bind] in Hx; [|done]. injection Hx as <-.
  cbn [list_find] in Hf. rewrite decide_True in Hf by (by subst; split).
  injection Hf as <- <-.
  unfold Merge.mergedBlocksOf. rewrite bind_cons. cbn [fst snd]. rewrite Hn.
  f_equal. rewrite filter_cons_False by (intros H; apply H; by subst; split).
  clear Hn. revert Hrest. induction Hcs as [|[r c] [[r' c'] n'] ps cs Hpc Hcs IH];
    intros Hrest; [done|].
  cbn [fst snd] in Hpc. destruct (cellAt t r c) as [m|] eqn:Hm;
    cbn [mbind option_bind] in Hpc; [|done]. injection Hpc as <- <- <-.
  rewrite filter_cons_True.
  2:{ intros [Hr Hcl]. simpl in *. apply (Hrest (r, c)); [left|]. congruence. }
  rewrite !bind_cons. cbn [fst snd]. rewrite Hm. f_equal.
  apply IH. intros p Hp. apply Hrest. by right.
Qed.

(** ** Merge followed by unmerge *)





















(** ** Chain cleanup and the dispatch loop *)

Lemma cleanupDeletedRowChains_meta s oldState newState tr :
  cleanupDeletedRowChains s oldState newState = Some tr →
  rowCleanupMeta tr = true ∧ docChanged tr = true.
Proof.
  unfold cleanupDeletedRowChains. intros H.
  repeat (case_match; simplify_eq; try done).
  all: simpl; split; [done|]; unfold docChanged; simpl; apply bool_decide_eq_true.
  all: repeat match goal with
         | H : _ && _ = false |- _ => apply andb_false_iff in H as [H|H]
         | H : bool_decide _ = false |- _ => apply bool_decide_eq_false in H
         | H : bool_decide _ = true |- _ => apply bool_decide_eq_true in H
         end; lia.
Qed.

Lemma appendTransaction_flagged s transactions oldState newState :
  existsb rowCleanupMeta transactions = true →
  appendTransaction s transactions oldState newState = None.
Proof. intros H. unfold appendTransaction. by rewrite H. Qed.

Lemma appendTransaction_meta s transactions oldState newState tr :
  appendTransaction s transactions oldState newState = Some tr →
  rowCleanupMeta tr = true.
Proof.
  unfold appendTransaction. intros H.
  repeat (case_match; simplify_eq; try done).
  by eapply cleanupDeletedRowChains_meta.
Qed.

(** C10.  Every transaction of the chain cleanup carries the cleanup
    flag; [appendTransaction] returns nothing for a batch that holds a
    flagged transaction; so it returns nothing for any batch that holds a
    transaction it returned; and a dispatch loop that hands the plugin its
    own appended transactions settles, for every edit, within two rounds
    and with at most one appended transaction. *)
Theorem cleanup_flag_stops_feedback s :
  (∀ oldState newState tr,
     cleanupDeletedRowChains s oldState newState = Some tr → rowCleanupMeta tr = true)
  ∧ (∀ transactions oldState newState,
       existsb rowCleanupMeta transactions = true →
       appendTransaction s transactions oldState newState = None)
  ∧ (∀ transactions oldState newState tr batch oldState' newState',
       appendTransaction s transactions oldState newState = Some tr →
       tr ∈ batch →
       appendTransaction s batch oldState' newState' = None)
  ∧ (∀ resolveSelection rounds st root,
       (2 ≤ rounds)%nat →
       ∃ st' appended,
         dispatchEdit s resolveSelection rounds st root = Some (st', appended)
         ∧ (length appended ≤ 1)%nat).
Proof.
  split; [|split; [|split]].
  - intros ??? H. by apply cleanupDeletedRowChains_meta in H as [? _].
  - apply appendTransaction_flagged.
  - intros trs o n tr batch o' n' H Hin. apply appendTransaction_flagged.
    apply existsb_exists. exists tr. split; [by apply list_elem_of_In|].
    by eapply appendTransaction_meta.
  - intros resolve rounds st root Hr.
    destruct rounds as [|[|rounds]]; try lia.
    unfold dispatchEdit. cbn [settle].
    destruct (appendTransaction s [root] st (applyInner resolve st root)) as [tr|] eqn:H1.
    + rewrite appendTransaction_flagged.
      * eexists _, _. split; [reflexivity|]. simpl. lia.
      * simpl. by rewrite (appendTransaction_meta _ _ _ _ _ H1).
    + eexists _, _. split; [reflexivity|]. simpl. lia.
Qed.

Lemma cleanup_flag_stops_feedback_witness :
  cleanupDeletedRowChains sampleSchema chainOfThree middleRowDeleted
  = Some middleRowCleanup
  ∧ rowCleanupMeta middleRowCleanup = true
  ∧ appendTransaction sampleSchema [middleRowCleanup] chainOfThree middleRowDeleted = None
  ∧ dispatchEdit sampleSchema (λ st _, selection st) 2 chainOfThree middleRowDeletion
    = Some (mkState (trDoc middleRowCleanup) NoSelection, [middleRowCleanup]).
Proof.
  split; [vm_compute; reflexivity|]. split; [|split].
  - apply (proj1 (cleanup_flag_stops_feedback sampleSchema) chainOfThree middleRowDeleted).
    vm_compute. reflexivity.
  - apply (proj1 (proj2 (cleanup_flag_stops_feedback sampleSchema))). reflexivity.
  - vm_compute. reflexivity.
Defined.

(** C7, the claim as stated fails: after the middle row of the chain
    A, B, C is deleted, the cleanup removes C and keeps A, with its
    [rmLinkedNext] cleared. *)
Lemma middle_link_deletion_keeps_upstream :
  cleanupDeletedRowChains sampleSchema chainOfThree middleRowDeleted
  = Some middleRowCleanup
  ∧ rowsOfDoc (trDoc middleRowCleanup) = [setLinkedNext None chainRowA]
  ∧ rowsOfDoc (doc chainOfThree) = [chainRowA; chainRowB; chainRowC].
Proof. repeat split; vm_compute; reflexivity. Qed.

(** ** Rows by identifier *)

Lemma NoDup_omap_lookup {A B} (f : A → option B) (l : list A) i j x y a :
  NoDup (omap f l) → l !! i = Some x → l !! j = Some y →
  f x = Some a → f y = Some a → i = j.
Proof.
  revert i j. induction l as [|z l IH]; intros i j Hnd Hi Hj Hx Hy; [done|].
  simpl in Hnd. destruct i as [|i], j as [|j]; simpl in *; simplify_eq.
  - done.
  - rewrite Hx in Hnd. apply NoDup_cons in Hnd as [Hnot _].
    exfalso. apply Hnot. apply list_elem_of_omap. exists y.
    split; [by eapply list_elem_of_lookup_2|done].
  - rewrite Hy in Hnd. apply NoDup_cons in Hnd as [Hnot _].
    exfalso. apply Hnot. apply list_elem_of_omap. exists x.
    split; [by eapply list_elem_of_lookup_2|done].
  - f_equal. apply IH; try done.
    destruct (f z); [by apply NoDup_cons in Hnd as [_ ?]|done].
Qed.

Lemma NoDup_omap_elem {A B} (f : A → option B) (l : list A) x y a :
  NoDup (omap f l) → x ∈ l → y ∈ l → f x = Some a → f y = Some a → x = y.
Proof.
  intros Hnd Hx Hy Hfx Hfy.
  apply list_elem_of_lookup in Hx as [i Hi]. apply list_elem_of_lookup in Hy as [j Hj].
  assert (i = j) by by eapply NoDup_omap_lookup. by simplify_eq.
Qed.















(** ** Merge-back on the rows *)



Lemma setCellAt_id ci bs r : rmRowId (setCellAt ci bs r) = rmRowId r.
Proof. done. Qed.


(** ** Positions after the deletion of a row

    Where a row is deleted, the rows before it keep their positions and
    the rows after it move up by its size. *)


























Lemma wf_asStringOrNull v :
  (∀ x, v = Some x → wfId x) → Js.asStringOrNull v = v.
Proof. intros H. destruct v as [x|]; [|done]. by apply H. Qed.

Lemma ChainOk_keys rs r :
  ChainOk rs → r ∈ rs →
  Js.asStringOrNull (rmRowId r) = rmRowId r
  ∧ Js.asStringOrNull (rmLinkedPrev r) = rmLinkedPrev r
  ∧ Js.asStringOrNull (rmLinkedNext r) = rmLinkedNext r.
Proof.
  intros Hok Hr. destruct (chain_wf _ Hok r Hr) as (H1 & H2 & H3).
  by rewrite !wf_asStringOrNull.
Qed.



Lemma scenario_chains_ok : ChainOk [scenarioRowR; scenarioRowN].
Proof.
  split.
  - intros r Hr. apply elem_of_cons in Hr as [->|Hr];
      [|apply list_elem_of_singleton in Hr as ->];
      (repeat split; intros x [= <-]; reflexivity).
  - vm_compute. apply NoDup_cons. split; [|apply NoDup_singleton].
    intros H. apply list_elem_of_singleton in H. discriminate H.
  - intros r x Hr Hn. apply elem_of_cons in Hr as [->|Hr];
      [|apply list_elem_of_singleton in Hr as ->]; [|discriminate Hn].
    injection Hn as <-. split; [by eexists|].
    exists scenarioRowN. split; [right; left|]. by split.
  - intros r x Hr Hp. apply elem_of_cons in Hr as [->|Hr];
      [|apply list_elem_of_singleton in Hr as ->]; [discriminate Hp|].
    injection Hp as <-. split; [by eexists|].
    exists scenarioRowR. split; [left|]. by split.
  - exists (λ x, if decide (x = "R") then 0%nat else 1%nat).
    intros r a x Hr Ha Hn. apply elem_of_cons in Hr as [->|Hr];
      [|apply list_elem_of_singleton in Hr as ->]; [|discriminate Hn].
    injection Ha as <-. injection Hn as <-. vm_compute. lia.
Qed.

(** ** Cutting cell content *)

Lemma splitBlocksAt_app bs off keep tail :
  splitBlocksAt bs off = Some (keep, tail) → bs = keep ++ tail.
Proof.
  revert off keep tail. induction bs as [|b bs IH]; intros off keep tail H.
  - destruct off; simpl in H; by simplify_eq.
  - destruct off as [|off]; simpl in H; [by simplify_eq|].
    destruct (decide (nodeSize b ≤ S off)%nat); [|done].
    destruct (splitBlocksAt bs (S off - nodeSize b)) as [[k t]|] eqn:Hs; [|done].
    simpl in H. injection H as <- <-. simpl. f_equal. by eapply IH.
Qed.

Lemma splitBlocksAt_size bs off keep tail :
  splitBlocksAt bs off = Some (keep, tail) → contentSize keep = off.
Proof.
  revert off keep tail. induction bs as [|b bs IH]; intros off keep tail H.
  - destruct off; simpl in H; by simplify_eq.
  - destruct off as [|off]; simpl in H; [by simplify_eq|].
    destruct (decide (nodeSize b ≤ S off)%nat); [|done].
    destruct (splitBlocksAt bs (S off - nodeSize b)) as [[k t]|] eqn:Hs; [|done].
    simpl in H. injection H as <- <-. apply IH in Hs.
    unfold contentSize in *. simpl. lia.
Qed.

Lemma string_app_cons x (a b : string) : String x a +:+ b = String x (a +:+ b).
Proof. reflexivity. Qed.

Lemma string_app_assoc (a b c : string) : (a +:+ b) +:+ c = a +:+ (b +:+ c).
Proof. induction a as [|x a IH]; [done|]. rewrite !string_app_cons. f_equal. apply IH. Qed.

Lemma string_app_nil_r (a : string) : a +:+ "" = a.
Proof. induction a as [|x a IH]; [done|]. rewrite string_app_cons. f_equal. apply IH. Qed.


Lemma blocksText_app a b : blocksText (a ++ b) = blocksText a +:+ blocksText b.
Proof.
  induction a as [|x a IH]; simpl; [done|].
  unfold blocksText in *. simpl. by rewrite IH, string_app_assoc.
Qed.

Lemma inlinesText_app a b : inlinesText (a ++ b) = inlinesText a +:+ inlinesText b.
Proof.
  induction a as [|x a IH]; simpl; [done|].
  unfold inlinesText in *. simpl. by rewrite IH, string_app_assoc.
Qed.







(** ** Pagination on the rows *)







Lemma isEmptyPlaceholderCell_emptyCellLike defaults c :
  isEmptyPlaceholderCell (emptyCellLike defaults c) = true.
Proof. reflexivity. Qed.




















(** ** Chains after a step of the engine *)















(** ** The maps of the cleanup *)

Lemma mapGet_cons {A} k k' (v : A) m :
  mapGet k ((k', v) :: m) = if decide (k' = k) then Some v else mapGet k m.
Proof.
  unfold mapGet. cbn [list_find]. cbn. case_decide; [done|].
  by destruct (list_find _ m) as [[i [k2 v2]]|].
Qed.

Lemma mapGet_mapSet {A} k k' (v : A) m :
  mapGet k' (mapSet k v m) = if decide (k = k') then Some v else mapGet k' m.
Proof.
  induction m as [|[k2 v2] m IH]; cbn [mapSet].
  - rewrite mapGet_cons. by case_decide.
  - destruct (decide (k2 = k)) as [->|Hne].
    + rewrite !mapGet_cons. by case_decide.
    + rewrite !mapGet_cons, IH. repeat case_decide; congruence.
Qed.

Lemma mapGet_keys {A} k (m : list (string * A)) :
  is_Some (mapGet k m) ↔ k ∈ m.*1.
Proof.
  induction m as [|[k2 v2] m IH]; [split; [by intros [? ?]|by intros ?%elem_of_nil]|].
  rewrite mapGet_cons. cbn. rewrite elem_of_cons. case_decide.
  - split; [by left|by eexists].
  - rewrite IH. split; [by right|]. intros [?|?]; [congruence|done].
Qed.

Lemma mapHas_true {A} k (m : list (string * A)) :
  mapHas k m = true ↔ is_Some (mapGet k m).
Proof. unfold mapHas. by rewrite bool_decide_eq_true. Qed.

Lemma mapHas_false {A} k (m : list (string * A)) :
  mapHas k m = false ↔ mapGet k m = None.
Proof.
  unfold mapHas. rewrite bool_decide_eq_false, <- eq_None_not_Some. done.
Qed.

Lemma collectRowsById_rows d : collectRowsById d = rowsById (rowsOfDoc d).
Proof. done. Qed.

Lemma rowsById_snoc rows r :
  rowsById (rows ++ [r])
  = match Js.asStringOrNull (rmRowId r) with
    | Some id => mapSet id (length rows, r) (rowsById rows)
    | None => rowsById rows
    end.
Proof.
  unfold rowsById. rewrite imap_app. cbn [imap]. rewrite foldl_snoc.
  cbn [snd]. by rewrite Nat.add_0_r.
Qed.

(** An entry of the map is a row of the document, under its trimmed
    identifier, at its address. *)
Lemma rowsById_Some rows x k r :
  mapGet x (rowsById rows) = Some (k, r) →
  rows !! k = Some r ∧ Js.asStringOrNull (rmRowId r) = Some x.
Proof.
  induction rows as [|r0 rows IH] using rev_ind; [done|].
  rewrite rowsById_snoc. intros H.
  assert (Hold : mapGet x (rowsById rows) = Some (k, r) →
                 (rows ++ [r0]) !! k = Some r ∧ Js.asStringOrNull (rmRowId r) = Some x).
  { intros [Hk Hid]%IH. split; [|done]. by apply lookup_app_l_Some. }
  destruct (Js.asStringOrNull (rmRowId r0)) as [x0|] eqn:Hx0; [|by apply Hold].
  rewrite mapGet_mapSet in H. case_decide as Hc; [|by apply Hold].
  injection H as <- <-. subst x0. split; [|done].
  by rewrite list_lookup_middle.
Qed.

Lemma rowsById_is_Some rows x :
  is_Some (mapGet x (rowsById rows))
  ↔ ∃ r, r ∈ rows ∧ Js.asStringOrNull (rmRowId r) = Some x.
Proof.
  induction rows as [|r0 rows IH] using rev_ind.
  - split; [by intros [? ?]|]. by intros (r & ?%elem_of_nil & _).
  - rewrite rowsById_snoc. setoid_rewrite elem_of_app.
    setoid_rewrite list_elem_of_singleton.
    destruct (Js.asStringOrNull (rmRowId r0)) as [x0|] eqn:Hx0.
    + rewrite mapGet_mapSet. case_decide as Hc.
      * subst x0. split; [|by eexists]. intros _. exists r0. split; [by right|done].
      * rewrite IH. split.
        -- intros (r & Hr & Hid). exists r. split; [by left|done].
        -- intros (r & [Hr| ->] & Hid); [by exists r|congruence].
    + rewrite IH. split.
      * intros (r & Hr & Hid). exists r. split; [by left|done].
      * intros (r & [Hr| ->] & Hid); [by exists r|congruence].
Qed.

(** When no identifier occurs twice, every row with an identifier is in
    the map. *)
Lemma rowsById_lookup rows x k r :
  NoDup (omap (λ r, Js.asStringOrNull (rmRowId r)) rows) →
  rows !! k = Some r → Js.asStringOrNull (rmRowId r) = Some x →
  mapGet x (rowsById rows) = Some (k, r).
Proof.
  revert k. induction rows as [|r0 rows IH] using rev_ind; intros k Hnd Hk Hid; [done|].
  rewrite rowsById_snoc. rewrite omap_app in Hnd.
  apply NoDup_app in Hnd as (Hnd & Hdis & _).
  destruct (decide (k < length rows)%nat) as [Hlt|Hge].
  - rewrite lookup_app_l in Hk by done.
    destruct (Js.asStringOrNull (rmRowId r0)) as [x0|] eqn:Hx0; [|by apply IH].
    rewrite mapGet_mapSet. case_decide as Hc; [|by apply IH].
    subst x0. exfalso. apply (Hdis x).
    + apply list_elem_of_omap. exists r. split; [by eapply list_elem_of_lookup_2|done].
    + cbn. rewrite Hx0. left.
  - assert (k = length rows) as ->.
    { apply lookup_lt_Some in Hk. rewrite length_app in Hk. cbn in Hk. lia. }
    rewrite list_lookup_middle in Hk by done. injection Hk as ->.
    rewrite Hid, mapGet_mapSet. by rewrite decide_True.
Qed.

Lemma rowsById_nil rows :
  length (rowsById rows) = 0%nat →
  ∀ r, r ∈ rows → Js.asStringOrNull (rmRowId r) = None.
Proof.
  intros Hlen r Hr. destruct (Js.asStringOrNull (rmRowId r)) as [x|] eqn:Hx; [|done].
  assert (Hs : is_Some (mapGet x (rowsById rows))) by (apply rowsById_is_Some; by exists r).
  destruct (rowsById rows); [by destruct Hs|done].
Qed.

(** ** The forward walk *)

Lemma filter_length_lt {A} (P Q : A → Prop) `{!∀ x, Decision (P x)}
    `{!∀ x, Decision (Q x)} (l : list A) x0 :
  (∀ x, Q x → P x) → x0 ∈ l → P x0 → ¬ Q x0 →
  (length (filter Q l) < length (filter P l))%nat.
Proof.
  intros HQP Hx0 HP HQ. rewrite <- (list_filter_filter_l Q P) by done.
  apply (length_filter_lt _ _ x0); [|done]. by apply list_elem_of_filter.
Qed.

(** With fuel for every identifier not yet marked, the walk marks its
    starting point and leaves the marked identifiers closed under the
    recorded successor; and it marks nothing but the starting point and
    successors of marked identifiers. *)
Lemma walkChain_spec old fuel n R :
  (length (filter (λ k, k ∉ R) old.*1) < fuel)%nat →
  (∀ y z, y ∈ R → recordedNext old y = Some z → z ∈ R ∨ n = Some z) →
  let R' := walkChain fuel old n R in
  (∀ y, y ∈ R → y ∈ R')
  ∧ (∀ z, n = Some z → z ∈ R')
  ∧ (∀ y z, y ∈ R' → recordedNext old y = Some z → z ∈ R')
  ∧ (∀ y, y ∈ R' → y ∈ R ∨ n = Some y ∨ ∃ a, a ∈ R' ∧ recordedNext old a = Some y).
Proof.
  revert n R. induction fuel as [|fuel IH]; intros n R Hfuel HJ; [lia|].
  destruct n as [id|]; cbn [walkChain].
  - case_bool_decide as Hin.
    + cbn zeta. split; [done|]. split; [by intros z [= <-]|]. split; [|by left].
      intros y z Hy Hz. destruct (HJ y z Hy Hz) as [?|[= <-]]; done.
    + destruct (mapGet id old) as [[k nextOld]|] eqn:Hget.
      * assert (Hkey : id ∈ old.*1) by (apply mapGet_keys; by rewrite Hget).
        destruct (IH (Js.asStringOrNull (rmLinkedNext nextOld)) (R ++ [id]))
          as (H1 & H2 & H3 & H4).
        { assert (length (filter (λ k, k ∉ R ++ [id]) old.*1)
                  < length (filter (λ k, k ∉ R) old.*1))%nat; [|lia].
          apply (filter_length_lt _ _ _ id); [|done|done|].
          - intros x Hx Hx'. apply Hx. apply elem_of_app. by left.
          - intros Hx. apply Hx. apply elem_of_app. right. by left. }
        { intros y z [Hy|Hy%list_elem_of_singleton]%elem_of_app Hz.
          - left. apply elem_of_app.
            destruct (HJ y z Hy Hz) as [?|[= <-]]; [by left|right; left].
          - subst y. right. unfold recordedNext in Hz. by rewrite Hget in Hz. }
        cbn zeta. split; [|split; [|split]].
        -- intros y Hy. apply H1, elem_of_app. by left.
        -- intros z [= <-]. apply H1, elem_of_app. right. left.
        -- done.
        -- intros y Hy. destruct (H4 y Hy) as [[?|Hs%list_elem_of_singleton]%elem_of_app|[Hn|Ha]].
           ++ by left.
           ++ subst y. right. by left.
           ++ right. right. exists id. split.
              ** apply H1, elem_of_app. right. left.
              ** unfold recordedNext. by rewrite Hget.
           ++ by right; right.
      * cbn zeta.
        split; [intros y Hy; apply elem_of_app; by left|].
        split; [intros z [= <-]; apply elem_of_app; right; left|].
        split.
        -- intros y z [Hy|Hy%list_elem_of_singleton]%elem_of_app Hz.
           ++ apply elem_of_app. destruct (HJ y z Hy Hz) as [?|[= <-]]; [by left|right; left].
           ++ subst y. unfold recordedNext in Hz. by rewrite Hget in Hz.
        -- intros y [Hy|Hy%list_elem_of_singleton]%elem_of_app; [by left|].
           subst y. right. by left.
  - cbn zeta. split; [done|]. split; [done|]. split; [|by left].
    intros y z Hy Hz. by destruct (HJ y z Hy Hz).
Qed.

Lemma elem_of_setAdd k s x : x ∈ setAdd k s ↔ x = k ∨ x ∈ s.
Proof.
  unfold setAdd. case_bool_decide.
  - split; [by right|]. by intros [->|?].
  - rewrite elem_of_app, list_elem_of_singleton. tauto.
Qed.

Lemma markDeleted_marks old new ds R C d :
  MarksOk old new ds R C →
  MarksOk old new (ds ++ [d]) (markDeleted old new (R, C) d).1
    (markDeleted old new (R, C) d).2.
Proof.
  intros (Ha & Hb & Hc & Hd & He). unfold markDeleted.
  destruct (mapGet d old) as [[k oldRow]|] eqn:Hget; cbn [fst snd].
  - assert (Hn : recordedNext old d = Js.asStringOrNull (rmLinkedNext oldRow)).
    { unfold recordedNext. by rewrite Hget. }
    assert (Hp : recordedPrev old d = Js.asStringOrNull (rmLinkedPrev oldRow)).
    { unfold recordedPrev. by rewrite Hget. }
    rewrite <- Hn, <- Hp.
    destruct (walkChain_spec old (S (length old)) (recordedNext old d) R)
      as (W1 & W2 & W3 & W4).
    { pose proof (length_filter (λ k, k ∉ R) old.*1) as Hl.
      rewrite length_fmap in Hl. lia. }
    { intros y z Hy Hz. left. by apply (Ha y). }
    cbn zeta in W1, W2, W3, W4.
    set (R' := walkChain (S (length old)) old (recordedNext old d) R) in *.
    set (C' := match recordedPrev old d with
               | Some prevId => if mapHas prevId new then setAdd prevId C else C
               | None => C
               end).
    assert (HC : ∀ p, p ∈ C' ↔ p ∈ C ∨ (recordedPrev old d = Some p ∧ mapHas p new = true)).
    { intros p. unfold C'. destruct (recordedPrev old d) as [q|].
      - destruct (mapHas q new) eqn:Hq.
        + rewrite elem_of_setAdd. split.
          * intros [->|?]; [right|left]; done.
          * intros [?|[[= <-] _]]; [right|left]; done.
        + split; [by left|]. intros [?|[[= <-] ?]]; [done|congruence].
      - split; [by left|]. by intros [?|[? _]]. }
    split; [done|]. split; [|split; [|split]].
    + intros d' z [Hd'|Hd'%list_elem_of_singleton]%elem_of_app Hz.
      * apply W1. by apply (Hb d').
      * subst d'. by apply W2.
    + intros y Hy. destruct (W4 y Hy) as [HyR|[Hyn|(a & HaR & Hay)]].
      * destruct (Hc y HyR) as (a & Hay & [Had|HaR]).
        -- exists a. split; [done|]. left. apply elem_of_app. by left.
        -- exists a. split; [done|]. right. by apply W1.
      * exists d. split; [done|]. left. apply elem_of_app. right. left.
      * exists a. split; [done|]. by right.
    + intros p [HpC|[Hpd Hpn]]%HC.
      * destruct (Hd p HpC) as (Hh & d' & Hd' & Hdp). split; [done|].
        exists d'. split; [apply elem_of_app; by left|done].
      * split; [done|]. exists d. split; [apply elem_of_app; right; left|done].
    + intros d' p [Hd'|Hd'%list_elem_of_singleton]%elem_of_app Hdp Hh; apply HC.
      * left. by apply (He d').
      * subst d'. by right.
  - assert (Hn : recordedNext old d = None) by (unfold recordedNext; by rewrite Hget).
    assert (Hp : recordedPrev old d = None) by (unfold recordedPrev; by rewrite Hget).
    split; [done|]. split; [|split; [|split]].
    + intros d' z [Hd'|Hd'%list_elem_of_singleton]%elem_of_app Hz.
      * by apply (Hb d').
      * subst d'. congruence.
    + intros y Hy. destruct (Hc y Hy) as (a & Hay & [Had|HaR]).
      * exists a. split; [done|]. left. apply elem_of_app. by left.
      * exists a. split; [done|]. by right.
    + intros p HpC. destruct (Hd p HpC) as (Hh & d' & Hd' & Hdp). split; [done|].
      exists d'. split; [apply elem_of_app; by left|done].
    + intros d' p [Hd'|Hd'%list_elem_of_singleton]%elem_of_app Hdp Hh.
      * by apply (He d').
      * subst d'. congruence.
Qed.

(** The marks after the loop over the deleted identifiers. *)
Lemma markDeleted_fold old new ds :
  MarksOk old new ds (foldl (markDeleted old new) ([], []) ds).1
    (foldl (markDeleted old new) ([], []) ds).2.
Proof.
  induction ds as [|d ds IH] using rev_ind.
  - cbn. split; [by intros y z ?%elem_of_nil|]. split; [by intros y z ?%elem_of_nil|].
    split; [by intros y ?%elem_of_nil|]. split; [by intros y ?%elem_of_nil|].
    by intros d p ?%elem_of_nil.
  - rewrite foldl_snoc. destruct (foldl (markDeleted old new) ([], []) ds) as [R C].
    by apply markDeleted_marks.
Qed.

(** ** The rows after the cleanup *)

Lemma rowCountsAsKeep_negb R r : rowCountsAsKeep R r = negb (rowWillBeDeleted R r).
Proof. unfold rowCountsAsKeep, rowWillBeDeleted. by destruct (Js.asStringOrNull _). Qed.

Lemma keepCount_filter R rs :
  keepCount R rs = length (filter (λ r, rowWillBeDeleted R r = false) rs).
Proof.
  unfold keepCount. f_equal. apply list_filter_iff. intros r.
  rewrite rowCountsAsKeep_negb. by destruct (rowWillBeDeleted R r).
Qed.

Lemma keepCount_0 R rs :
  keepCount R rs = 0%nat ↔ ∀ r, r ∈ rs → rowWillBeDeleted R r = true.
Proof.
  rewrite keepCount_filter. split.
  - intros Hlen r Hr. destruct (rowWillBeDeleted R r) eqn:Hd; [done|].
    assert (Hin : r ∈ filter (λ r, rowWillBeDeleted R r = false) rs)
      by by apply list_elem_of_filter.
    destruct (filter _ rs); [by apply elem_of_nil in Hin|done].
  - intros Hall. induction rs as [|r rs IH]; [done|].
    rewrite filter_cons. rewrite decide_False.
    + apply IH. intros r' Hr'. apply Hall. by right.
    + rewrite Hall; [done|left].
Qed.

Lemma filter_all_false {A} (P : A → Prop) `{!∀ x, Decision (P x)} (l : list A) :
  (∀ x, x ∈ l → ¬ P x) → filter P l = [].
Proof.
  induction l as [|x l IH]; intros Hall; [done|].
  rewrite filter_cons, decide_False by (apply Hall; left).
  apply IH. intros y Hy. apply Hall. by right.
Qed.

Lemma filter_all_true {A} (P : A → Prop) `{!∀ x, Decision (P x)} (l : list A) :
  (∀ x, x ∈ l → P x) → filter P l = l.
Proof.
  induction l as [|x l IH]; intros Hall; [done|].
  rewrite filter_cons, decide_True by (apply Hall; left).
  f_equal. apply IH. intros y Hy. apply Hall. by right.
Qed.

Lemma rowsOfChild_prune R c :
  pruneChild R c ≫= rowsOfChild
  = filter (λ r, rowWillBeDeleted R r = false) (rowsOfChild c).
Proof.
  destruct c as [r|rs]; cbn [pruneChild rowsOfChild].
  - rewrite filter_cons, filter_nil. destruct (rowWillBeDeleted R r) eqn:Hd.
    + by rewrite decide_False.
    + by rewrite decide_True.
  - unfold groupToDelete. case_bool_decide as Hk.
    + symmetry. apply filter_all_false. intros r Hr.
      rewrite (proj1 (keepCount_0 R rs) Hk r Hr). done.
    + csimpl. by rewrite app_nil_r.
Qed.

Lemma rowsOfChildren_prune R cs :
  rowsOfChildren (cs ≫= pruneChild R)
  = filter (λ r, rowWillBeDeleted R r = false) (rowsOfChildren cs).
Proof.
  unfold rowsOfChildren. induction cs as [|c cs IH]; [done|].
  csimpl. rewrite bind_app, filter_app, IH. f_equal. apply rowsOfChild_prune.
Qed.

(** The deletions leave the rows that are not marked, in their order. *)
Lemma rowsOfDoc_pruneDoc R d :
  rowsOfDoc (pruneDoc R d) = filter (λ r, rowWillBeDeleted R r = false) (rowsOfDoc d).
Proof.
  unfold rowsOfDoc, pruneDoc. induction d as [|n d IH]; [done|].
  csimpl. rewrite bind_app, filter_app, IH. f_equal.
  destruct n as [t|b]; cbn [pruneNode rowsOfNode].
  - unfold tableToDelete. case_bool_decide as Hk.
    + symmetry. apply filter_all_false. intros r Hr.
      rewrite (proj1 (keepCount_0 R _) Hk r Hr). done.
    + csimpl. rewrite app_nil_r. apply rowsOfChildren_prune.
  - done.
Qed.

Lemma rowsOfDoc_fillDoc defaults d : rowsOfDoc (fillDoc defaults d) = rowsOfDoc d.
Proof. by destruct d. Qed.

Lemma sum_list_0 (l : list nat) : sum_list l = 0%nat → ∀ n, n ∈ l → n = 0%nat.
Proof.
  induction l as [|m l IH]; intros H n Hn; [by apply elem_of_nil in Hn|].
  cbn in H. apply elem_of_cons in Hn as [->|Hn]; [lia|]. apply IH; [lia|done].
Qed.

(** Without a deletion no row of the document is marked. *)
Lemma deletionsOf_0 R d r :
  deletionsOf R d = 0%nat → r ∈ rowsOfDoc d → rowWillBeDeleted R r = false.
Proof.
  intros H0 Hr. unfold rowsOfDoc in Hr.
  apply list_elem_of_bind in Hr as (n & Hrn & Hn).
  assert (Hn0 : deletionsOfNode R n = 0%nat).
  { apply (sum_list_0 _ H0). apply list_elem_of_fmap. by exists n. }
  destruct n as [t|b]; [|by apply elem_of_nil in Hrn].
  cbn [deletionsOfNode rowsOfNode] in *. destruct (tableToDelete R t); [done|].
  unfold rowsOfTable, rowsOfChildren in Hrn.
  apply list_elem_of_bind in Hrn as (c & Hrc & Hc).
  assert (Hc0 : deletionsOfChild R c = 0%nat).
  { apply (sum_list_0 _ Hn0). apply list_elem_of_fmap. by exists c. }
  destruct c as [r0|rs]; cbn [deletionsOfChild rowsOfChild] in *.
  - apply list_elem_of_singleton in Hrc as ->.
    by destruct (rowWillBeDeleted R r0).
  - destruct (groupToDelete R rs); [done|].
    destruct (rowWillBeDeleted R r) eqn:Hd; [|done].
    assert (Hin : r ∈ filter (λ r, rowWillBeDeleted R r = true) rs)
      by by apply list_elem_of_filter.
    destruct (filter _ rs); [by apply elem_of_nil in Hin|done].
Qed.

Lemma containerGoesOfChildren R tg cs :
  (tg = true → ∀ r, r ∈ rowsOfChildren cs → rowWillBeDeleted R r = true) →
  Forall2 (λ (b : bool) r, b = true → rowWillBeDeleted R r = true)
    (cs ≫= containerGoesOfChild R tg) (rowsOfChildren cs).
Proof.
  unfold rowsOfChildren. induction cs as [|c cs IH]; intros Htg; [constructor|].
  csimpl. apply Forall2_app.
  - destruct c as [r|rs]; cbn [containerGoesOfChild rowsOfChild].
    + constructor; [|constructor]. intros ->. apply Htg; [done|].
      csimpl. left.
    + assert (Hrs : tg || groupToDelete R rs = true →
                    ∀ r, r ∈ rs → rowWillBeDeleted R r = true).
      { intros [->|Hg]%orb_true_iff r Hr.
        - apply Htg; [done|]. csimpl. apply elem_of_app. by left.
        - unfold groupToDelete in Hg. apply bool_decide_eq_true in Hg.
          by apply (keepCount_0 R rs). }
      clear Htg IH. induction rs as [|r rs IH]; [constructor|].
      cbn [length replicate]. constructor.
      * intros Hb. apply Hrs; [done|left].
      * apply Forall2_impl with (P := λ (b : bool) r, b = true → rowWillBeDeleted R r = true);
          [|done].
        destruct (tg || groupToDelete R (r :: rs)) eqn:Hb.
        -- assert (Hall : ∀ r', r' ∈ rs → rowWillBeDeleted R r' = true).
           { intros r' Hr'. apply Hrs; [done|by right]. }
           clear -Hall. induction rs as [|r' rs IH]; [constructor|].
           cbn. constructor; [intros _; apply Hall; left|].
           apply IH. intros r2 Hr2. apply Hall. by right.
        -- clear. induction rs as [|r' rs IH]; [constructor|].
           cbn. constructor; [done|apply IH].
  - apply IH. intros -> r Hr. apply Htg; [done|].
    csimpl. apply elem_of_app. by right.
Qed.

(** A row whose table or group goes is marked. *)
Lemma containerGoes_deleted R d k r :
  containerGoes R d k = true → rowsOfDoc d !! k = Some r → rowWillBeDeleted R r = true.
Proof.
  assert (Hall : Forall2 (λ (b : bool) r, b = true → rowWillBeDeleted R r = true)
                   (d ≫= containerGoesOfNode R) (rowsOfDoc d)).
  { unfold rowsOfDoc. induction d as [|n d IH]; [constructor|].
    csimpl. apply Forall2_app; [|done].
    destruct n as [t|b]; [|constructor].
    cbn [containerGoesOfNode rowsOfNode]. apply containerGoesOfChildren.
    unfold tableToDelete. intros Ht%bool_decide_eq_true r' Hr'.
    by apply (keepCount_0 R (rowsOfTable t)). }
  unfold containerGoes. intros Hg Hk.
  destruct (Forall2_lookup_r _ _ _ _ _ Hall Hk) as (b & Hb & Himp).
  rewrite Hb in Hg. by apply Himp.
Qed.

Lemma omap_ext_in {A B} (f g : A → option B) (l : list A) :
  (∀ x, x ∈ l → f x = g x) → omap f l = omap g l.
Proof.
  induction l as [|x l IH]; intros H; [done|].
  cbn. rewrite (H x) by left. rewrite IH; [done|].
  intros y Hy. apply H. by right.
Qed.

Lemma filter_imap {A} (P : A → Prop) `{!∀ x, Decision (P x)} (g : nat → A → A)
    (f : A → A) (l : list A) :
  (∀ j x, l !! j = Some x → (P (g j x) ↔ P x) ∧ (P x → g j x = f x)) →
  filter P (imap g l) = f <$> filter P l.
Proof.
  revert g. induction l as [|x l IH]; intros g Hg; [done|].
  cbn [imap]. rewrite !filter_cons.
  destruct (Hg 0%nat x eq_refl) as [Hiff Heq].
  specialize (IH (g ∘ S) (λ j y Hj, Hg (S j) y Hj)).
  destruct (decide (P x)) as [HP|HP].
  - rewrite decide_True by by apply Hiff. cbn. by rewrite Heq, IH.
  - rewrite decide_False by by rewrite Hiff. done.
Qed.

Section Clear.
Context (R : list string) (newDoc : Doc).
Let N := rowsOfDoc newDoc.
Let newRows := collectRowsById newDoc.
Context (Hwf : ∀ r, r ∈ N → Js.asStringOrNull (rmRowId r) = rmRowId r).
Context (Hnd : NoDup (omap rmRowId N)).

Lemma newRows_Some x k r :
  mapGet x newRows = Some (k, r) ↔ N !! k = Some r ∧ rmRowId r = Some x.
Proof.
  unfold newRows. rewrite collectRowsById_rows. fold N. split.
  - intros [Hk Hid]%rowsById_Some. split; [done|].
    rewrite <- Hwf; [done|]. by eapply list_elem_of_lookup_2.
  - intros [Hk Hid]. apply rowsById_lookup; [|done|].
    + by rewrite (omap_ext_in _ rmRowId) by done.
    + rewrite Hwf; [done|]. by eapply list_elem_of_lookup_2.
Qed.

Lemma newRows_has x :
  mapHas x newRows = true ↔ ∃ r, r ∈ N ∧ rmRowId r = Some x.
Proof.
  rewrite mapHas_true. unfold newRows. rewrite collectRowsById_rows, rowsById_is_Some.
  fold N. split; intros (r & Hr & Hid); exists r; (split; [done|]).
  - by rewrite <- Hwf.
  - by rewrite Hwf.
Qed.

(** The first loop of the cleanup transaction, on the rows. *)
Lemma clearLinkedNext_fold C :
  let res := foldl (clearLinkedNext R newRows newDoc) (newDoc, 0%nat) C in
  rowsOfDoc res.1 = imap (clearWhere R C newDoc) N
  ∧ (res.2 = 0%nat →
     ∀ p k rk, p ∈ C → mapGet p newRows = Some (k, rk) →
               containerGoes R newDoc k = true).
Proof.
  induction C as [|p C IH] using rev_ind; cbn zeta.
  - cbn [foldl fst snd]. split; [|by intros _ p k rk ?%elem_of_nil].
    fold N. symmetry. apply list_eq. intros j. rewrite list_lookup_imap.
    destruct (N !! j) as [r|]; [|done]. cbn. unfold clearWhere.
    destruct (rmRowId r); [|done]. by rewrite bool_decide_eq_false_2 by apply not_elem_of_nil.
  - cbn zeta in IH. rewrite foldl_snoc.
    destruct (foldl (clearLinkedNext R newRows newDoc) (newDoc, 0%nat) C) as [d n].
    cbn [fst snd] in IH. destruct IH as [IHrows IHn].
    assert (Hsame : ∀ P : Prop,
              (∀ j r, N !! j = Some r → rmRowId r = Some p →
                      containerGoes R newDoc j = true) →
              imap (clearWhere R C newDoc) N = imap (clearWhere R (C ++ [p]) newDoc) N).
    { intros _ Hp. apply list_eq. intros j. rewrite !list_lookup_imap.
      destruct (N !! j) as [r|] eqn:Hj; [|done]. cbn. f_equal. unfold clearWhere.
      destruct (rmRowId r) as [x|] eqn:Hx; [|done].
      destruct (decide (x = p)) as [->|Hne].
      - rewrite (Hp j r) by done. cbn. by rewrite !andb_false_r.
      - assert (bool_decide (x ∈ C ++ [p]) = bool_decide (x ∈ C)) as ->; [|done].
        apply bool_decide_ext. rewrite elem_of_app, list_elem_of_singleton.
        split; [|by left]. by intros [?|?]. }
    unfold clearLinkedNext at 1 2.
    destruct (mapGet p newRows) as [[k rk]|] eqn:Hget.
    + apply newRows_Some in Hget as Hk. destruct Hk as [Hk Hid].
      destruct (containerGoes R newDoc k) eqn:Hg; cbn [fst snd].
      * split.
        -- rewrite IHrows. apply (Hsame True). intros j r Hj Hr.
           assert (j = k) as -> by by eapply (NoDup_omap_lookup rmRowId N).
           done.
        -- intros Hn q k' rk' [Hq|Hq%list_elem_of_singleton]%elem_of_app Hq'.
           ++ by apply (IHn Hn q k' rk').
           ++ subst q. rewrite Hget in Hq'. by injection Hq' as <- <-.
      * split; [|done]. rewrite rowsOfDoc_updateRow, IHrows.
        apply list_eq. intros j. rewrite list_lookup_alter. case_decide as Hjk.
        -- subst j. rewrite !list_lookup_imap, Hk. cbn. f_equal.
           unfold clearWhere. rewrite Hid, Hg. cbn [negb].
           rewrite (bool_decide_eq_true_2 (p ∈ C ++ [p]))
             by (apply elem_of_app; right; left).
           cbn. by case_bool_decide.
        -- rewrite !list_lookup_imap. destruct (N !! j) as [r|] eqn:Hj; [|done].
           cbn. f_equal. unfold clearWhere.
           destruct (rmRowId r) as [x|] eqn:Hx; [|done].
           assert (x ≠ p).
           { intros ->. apply Hjk. symmetry.
             by eapply (NoDup_omap_lookup rmRowId N). }
           assert (bool_decide (x ∈ C ++ [p]) = bool_decide (x ∈ C)) as ->; [|done].
           apply bool_decide_ext. rewrite elem_of_app, list_elem_of_singleton.
           split; [|by left]. by intros [?|?].
    + cbn [fst snd]. split.
      * rewrite IHrows. apply (Hsame True). intros j r Hj Hr.
        assert (mapGet p newRows = Some (j, r)) by by apply newRows_Some.
        congruence.
      * intros Hn q k' rk' [Hq|Hq%list_elem_of_singleton]%elem_of_app Hq'.
        -- by apply (IHn Hn q k' rk').
        -- subst q. congruence.
Qed.

(** The deletions after the first loop leave the rows that are not
    marked, those named in [clearPrevIds] without their pointer. *)
Lemma filter_clearWhere C :
  filter (λ r, rowWillBeDeleted R r = false) (imap (clearWhere R C newDoc) N)
  = cleanRows R C N.
Proof.
  unfold cleanRows. apply filter_imap. intros j r Hj.
  assert (Hdel : rowWillBeDeleted R (clearWhere R C newDoc j r) = rowWillBeDeleted R r).
  { unfold clearWhere. by destruct (_ && _). }
  split; [by rewrite Hdel|]. intros Hkeep.
  assert (Hg : containerGoes R newDoc j = false).
  { destruct (containerGoes R newDoc j) eqn:Hg; [|done].
    rewrite (containerGoes_deleted R newDoc j r) in Hkeep by done. done. }
  unfold clearWhere. rewrite Hg. cbn [negb]. rewrite andb_true_r.
  by destruct (rmRowId r).
Qed.

End Clear.

Lemma cleanRows_id R C (N : list Row) :
  (∀ r, r ∈ N → rowWillBeDeleted R r = false) →
  (∀ r x, r ∈ N → rmRowId r = Some x → x ∉ C) →
  cleanRows R C N = N.
Proof.
  intros Hd Hc. unfold cleanRows. rewrite filter_all_true by done.
  apply list_eq. intros j. rewrite list_lookup_fmap.
  destruct (N !! j) as [r|] eqn:Hj; [|done]. cbn. f_equal.
  destruct (rmRowId r) as [x|] eqn:Hx; [|done].
  rewrite bool_decide_eq_false_2; [done|].
  apply (Hc r); [by eapply list_elem_of_lookup_2|done].
Qed.

Lemma rowWillBeDeleted_nil r : rowWillBeDeleted [] r = false.
Proof.
  unfold rowWillBeDeleted. destruct (Js.asStringOrNull _); [|done].
  apply bool_decide_eq_false_2, not_elem_of_nil.
Qed.

Lemma cleanRows_nil (N : list Row) : cleanRows [] [] N = N.
Proof.
  apply cleanRows_id.
  - intros r _. apply rowWillBeDeleted_nil.
  - intros r x _ _. apply not_elem_of_nil.
Qed.

(** The rows after an edit and the cleanup that follows it (the rows of
    the cleanup transaction, or the rows after the edit when the cleanup
    appends nothing) are the rows after the edit without those marked for
    removal, those marked for clearing without their pointer.  The cleanup
    appends a transaction whenever a pointer is to be cleared. *)
Lemma cleanupDeletedRowChains_rows s oldState newState :
  let N := rowsOfDoc (doc newState) in
  let oldRows := collectRowsById (doc oldState) in
  let newRows := collectRowsById (doc newState) in
  let marks := foldl (markDeleted oldRows newRows) ([], [])
                 (deletedIdsOf oldRows newRows) in
  (∀ r, r ∈ N → Js.asStringOrNull (rmRowId r) = rmRowId r) →
  NoDup (omap rmRowId N) →
  rowsOfDoc (match cleanupDeletedRowChains s oldState newState with
             | Some tr => trDoc tr
             | None => doc newState
             end) = cleanRows marks.1 marks.2 N
  ∧ (∀ p, p ∈ marks.2 → is_Some (cleanupDeletedRowChains s oldState newState)).
Proof.
  intros N oldRows newRows marks Hwf Hnd.
  pose proof (markDeleted_fold oldRows newRows (deletedIdsOf oldRows newRows)) as Hm.
  fold marks in Hm. unfold cleanupDeletedRowChains. fold oldRows newRows.
  assert (Hnil : deletedIdsOf oldRows newRows = [] →
                 rowsOfDoc (doc newState) = cleanRows marks.1 marks.2 N
                 ∧ ∀ p, p ∈ marks.2 → is_Some (@None Transaction)).
  { intros HD. unfold marks. rewrite HD. cbn [foldl fst snd].
    rewrite cleanRows_nil. split; [done|]. by intros p ?%elem_of_nil. }
  case_bool_decide as Hold.
  { apply Hnil. unfold deletedIdsOf. by destruct oldRows. }
  case_bool_decide as HD.
  { apply Hnil. by destruct (deletedIdsOf oldRows newRows). }
  clear Hnil. fold marks. destruct marks as [R C] eqn:Hmarks. cbn [fst snd] in *.
  destruct (bool_decide (length R = 0%nat) && bool_decide (length C = 0%nat)) eqn:Hempty.
  { apply andb_true_iff in Hempty as [HR%bool_decide_eq_true HC%bool_decide_eq_true].
    destruct R; [|done]. destruct C; [|done].
    rewrite cleanRows_nil. split; [done|]. by intros p ?%elem_of_nil. }
  destruct (clearLinkedNext_fold R (doc newState) Hwf Hnd C) as [Hrows Hn].
  fold newRows N in Hrows, Hn.
  destruct (foldl (clearLinkedNext R newRows (doc newState)) (doc newState, 0%nat) C)
    as [d1 n1] eqn:Hfold.
  cbn [fst snd] in Hrows, Hn.
  destruct Hm as (_ & _ & _ & Hd & _).
  assert (Hcontra : deletionsOf R (doc newState) = 0%nat → n1 = 0%nat →
                    ∀ p, p ∈ C → False).
  { intros Hdel Hn1 p Hp. destruct (Hd p Hp) as [Hhas _].
    apply mapHas_true in Hhas as [[k rk] Hget].
    pose proof (Hn Hn1 p k rk Hp Hget) as Hg.
    apply (newRows_Some (doc newState) Hwf Hnd) in Hget as [Hk _].
    pose proof (containerGoes_deleted R (doc newState) k rk Hg Hk) as Hc.
    rewrite (deletionsOf_0 R (doc newState) rk Hdel) in Hc; [done|].
    by eapply list_elem_of_lookup_2. }
  destruct (bool_decide (deletionsOf R (doc newState) = 0%nat)
            && bool_decide (n1 = 0%nat)) eqn:Hnone.
  - apply andb_true_iff in Hnone as [Hdel%bool_decide_eq_true Hn1%bool_decide_eq_true].
    split; [|intros p Hp; by destruct (Hcontra Hdel Hn1 p)].
    symmetry. apply cleanRows_id.
    + intros r Hr. by apply (deletionsOf_0 R (doc newState)).
    + intros r x _ _ Hx. by apply (Hcontra Hdel Hn1 x).
  - split; [|by eexists]. cbn [trDoc].
    unfold N in *. rewrite <- (filter_clearWhere R (doc newState) C), <- Hrows.
    case_bool_decide as Hdel.
    + symmetry. apply filter_all_true. intros r Hr. rewrite Hrows in Hr.
      apply elem_of_lookup_imap in Hr as (j & r0 & -> & Hj).
      assert (Hsame : rowWillBeDeleted R (clearWhere R C (doc newState) j r0)
                      = rowWillBeDeleted R r0).
      { unfold clearWhere. by case_match. }
      rewrite Hsame. apply (deletionsOf_0 R (doc newState)); [done|].
      by eapply list_elem_of_lookup_2.
    + by rewrite rowsOfDoc_fillDoc, rowsOfDoc_pruneDoc.
Qed.

Lemma rowsById_iff (rows : list Row) x k r :
  (∀ r, r ∈ rows → Js.asStringOrNull (rmRowId r) = rmRowId r) →
  NoDup (omap rmRowId rows) →
  mapGet x (rowsById rows) = Some (k, r) ↔ rows !! k = Some r ∧ rmRowId r = Some x.
Proof.
  intros Hwf Hnd. split.
  - intros [Hk Hid]%rowsById_Some. split; [done|].
    rewrite <- Hwf; [done|]. by eapply list_elem_of_lookup_2.
  - intros [Hk Hid]. apply rowsById_lookup; [|done|].
    + by rewrite (omap_ext_in _ rmRowId) by done.
    + rewrite Hwf; [done|]. by eapply list_elem_of_lookup_2.
Qed.

Lemma rowsById_has (rows : list Row) x :
  (∀ r, r ∈ rows → Js.asStringOrNull (rmRowId r) = rmRowId r) →
  mapHas x (rowsById rows) = true ↔ ∃ r, r ∈ rows ∧ rmRowId r = Some x.
Proof.
  intros Hwf. rewrite mapHas_true, rowsById_is_Some.
  split; intros (r & Hr & Hid); exists r; (split; [done|]).
  - by rewrite <- Hwf.
  - by rewrite Hwf.
Qed.

(** ** Chains after an edit and its cleanup *)

Section EditCleanup.
Context (O N : list Row).
Context (HO : ChainOk O) (HE : UserEdit O N).
Let old := rowsById O.
Let new := rowsById N.


Lemma edit_keys r :
  r ∈ N →
  Js.asStringOrNull (rmRowId r) = rmRowId r
  ∧ Js.asStringOrNull (rmLinkedPrev r) = rmLinkedPrev r
  ∧ Js.asStringOrNull (rmLinkedNext r) = rmLinkedNext r.
Proof.
  intros Hr. destruct HE as [Hrows _].
  destruct (Hrows r Hr) as [(-> & -> & ->)|(ro & Hro & Hi & Hp & Hn)]; [done|].
  rewrite <- Hi, <- Hp, <- Hn. by apply (ChainOk_keys O).
Qed.

Lemma old_keys r : r ∈ O → Js.asStringOrNull (rmRowId r) = rmRowId r.
Proof. intros Hr. by apply (ChainOk_keys O). Qed.

Lemma new_keys r : r ∈ N → Js.asStringOrNull (rmRowId r) = rmRowId r.
Proof. intros Hr. by apply edit_keys. Qed.

Lemma old_next y z :
  recordedNext old y = Some z
  ↔ ∃ r, r ∈ O ∧ rmRowId r = Some y ∧ rmLinkedNext r = Some z.
Proof.
  unfold recordedNext, old. split.
  - destruct (mapGet y (rowsById O)) as [[k r]|] eqn:Hget; [|done]. cbn. intros Hz.
    apply rowsById_iff in Hget as [Hk Hid]; [|apply old_keys|apply (chain_unique _ HO)].
    assert (Hr : r ∈ O) by by eapply list_elem_of_lookup_2.
    exists r. split; [done|]. split; [done|].
    destruct (ChainOk_keys O r HO Hr) as (_ & _ & <-). done.
  - intros (r & Hr & Hid & Hz).
    apply list_elem_of_lookup in Hr as Hk. destruct Hk as [k Hk].
    rewrite (proj2 (rowsById_iff O y k r old_keys (chain_unique _ HO))) by done.
    cbn. destruct (ChainOk_keys O r HO Hr) as (_ & _ & ->). done.
Qed.

Lemma old_prev y z :
  recordedPrev old y = Some z
  ↔ ∃ r, r ∈ O ∧ rmRowId r = Some y ∧ rmLinkedPrev r = Some z.
Proof.
  unfold recordedPrev, old. split.
  - destruct (mapGet y (rowsById O)) as [[k r]|] eqn:Hget; [|done]. cbn. intros Hz.
    apply rowsById_iff in Hget as [Hk Hid]; [|apply old_keys|apply (chain_unique _ HO)].
    assert (Hr : r ∈ O) by by eapply list_elem_of_lookup_2.
    exists r. split; [done|]. split; [done|].
    destruct (ChainOk_keys O r HO Hr) as (_ & <- & _). done.
  - intros (r & Hr & Hid & Hz).
    apply list_elem_of_lookup in Hr as Hk. destruct Hk as [k Hk].
    rewrite (proj2 (rowsById_iff O y k r old_keys (chain_unique _ HO))) by done.
    cbn. destruct (ChainOk_keys O r HO Hr) as (_ & -> & _). done.
Qed.

Lemma new_has p : mapHas p new = true ↔ ∃ r, r ∈ N ∧ rmRowId r = Some p.
Proof. apply rowsById_has, new_keys. Qed.

Lemma deleted_iff d :
  d ∈ deletedIdsOf old new
  ↔ (∃ r, r ∈ O ∧ rmRowId r = Some d) ∧ mapHas d new = false.
Proof.
  unfold deletedIdsOf. rewrite list_elem_of_filter, <- mapGet_keys, <- mapHas_true.
  unfold old. rewrite (rowsById_has O d old_keys). tauto.
Qed.


End EditCleanup.





(** C7 (amended).  In a document with well-formed chains where the row
    with identifier [a] is the root of a chain and points to the row
    [b], which points to the row [c]: after an edit that deletes the row
    [b] and keeps the row [a], the cleanup appends a transaction, flagged
    as a cleanup, after which the row [a] is still in the document, with
    its pointer cleared, and no row has the identifier [c]. *)
Theorem middle_link_deletion s oldState newState rowA rowB rowA' a b c :
  ChainOk (rowsOfDoc (doc oldState)) →
  UserEdit (rowsOfDoc (doc oldState)) (rowsOfDoc (doc newState)) →
  rowA ∈ rowsOfDoc (doc oldState) → rmRowId rowA = Some a →
  rmLinkedPrev rowA = None → rmLinkedNext rowA = Some b →
  rowB ∈ rowsOfDoc (doc oldState) → rmRowId rowB = Some b →
  rmLinkedNext rowB = Some c →
  rowA' ∈ rowsOfDoc (doc newState) → rmRowId rowA' = Some a →
  (∀ r, r ∈ rowsOfDoc (doc newState) → rmRowId r ≠ Some b) →
  ∃ tr,
    cleanupDeletedRowChains s oldState newState = Some tr
    ∧ rowCleanupMeta tr = true
    ∧ (∃ r, r ∈ rowsOfDoc (trDoc tr) ∧ rmRowId r = Some a ∧ rmLinkedNext r = None)
    ∧ (∀ r, r ∈ rowsOfDoc (trDoc tr) → rmRowId r ≠ Some c).
Proof.
  intros HO HE HA HAi HAp HAn HB HBi HBn HA' HA'i Hgone.
  set (O := rowsOfDoc (doc oldState)) in *. set (N := rowsOfDoc (doc newState)) in *.
  destruct (cleanupDeletedRowChains_rows s oldState newState) as [Hrows Hsome].
  { intros r Hr. by apply (new_keys O N HO HE). }
  { by destruct HE. }
  pose proof (markDeleted_fold (collectRowsById (doc oldState))
                (collectRowsById (doc newState))
                (deletedIdsOf (collectRowsById (doc oldState))
                   (collectRowsById (doc newState)))) as HM.
  destruct (foldl _ _ _) as [R C]. cbn [fst snd] in *.
  rewrite !collectRowsById_rows in HM. fold O N in HM, Hrows.
  destruct HM as (Ma & Mb & Mc & Md & Me).
  assert (Hdel : b ∈ deletedIdsOf (rowsById O) (rowsById N)).
  { apply (deleted_iff O N HO). split; [by exists rowB|].
    destruct (mapHas b (rowsById N)) eqn:Hhas; [|done].
    apply (new_has O N HO HE) in Hhas as (r & Hr & Hid). by destruct (Hgone r Hr). }
  assert (HBp : rmLinkedPrev rowB = Some a).
  { destruct (chain_next _ HO rowA b HA HAn) as (_ & q & Hq & Hqi & Hqp).
    rewrite (NoDup_omap_elem rmRowId O rowB q b (chain_unique _ HO)) by done.
    congruence. }
  assert (HaC : a ∈ C).
  { apply (Me b a Hdel).
    - apply (old_prev O HO). by exists rowB.
    - apply (new_has O N HO HE). by exists rowA'. }
  assert (HaR : a ∉ R).
  { intros HaR. destruct (Mc a HaR) as (a' & Hnext & _).
    apply (old_next O HO) in Hnext as (r2 & Hr2 & Hr2i & Hr2n).
    destruct (chain_next _ HO r2 a Hr2 Hr2n) as (_ & q & Hq & Hqi & Hqp).
    rewrite (NoDup_omap_elem rmRowId O q rowA a (chain_unique _ HO)) in Hqp by done.
    congruence. }
  assert (HcR : c ∈ R).
  { apply (Mb b c Hdel). apply (old_next O HO). by exists rowB. }
  destruct (Hsome a HaC) as [tr Htr]. rewrite Htr in Hrows.
  exists tr. split; [done|]. split; [by eapply cleanupDeletedRowChains_meta|].
  rewrite Hrows. unfold cleanRows. split.
  - exists (setLinkedNext None rowA'). split; [|done].
    apply list_elem_of_fmap. exists rowA'. split.
    + rewrite HA'i. by rewrite bool_decide_eq_true_2.
    + apply list_elem_of_filter. split; [|done].
      unfold rowWillBeDeleted. rewrite (new_keys O N HO HE) by done.
      rewrite HA'i. by apply bool_decide_eq_false_2.
  - intros r' (r & -> & [Hkeep Hr]%list_elem_of_filter)%list_elem_of_fmap Hid.
    assert (Hrc : rmRowId r = Some c).
    { cbn beta in Hid. destruct (rmRowId r) as [x|] eqn:Hx; [|congruence].
      case_bool_decide; cbn in Hid; congruence. }
    unfold rowWillBeDeleted in Hkeep. rewrite (new_keys O N HO HE) in Hkeep by done.
    rewrite Hrc in Hkeep. by apply bool_decide_eq_false in Hkeep.
Qed.

Lemma chain_of_three_ok : ChainOk [chainRowA; chainRowB; chainRowC].
Proof.
  assert (Hcases : ∀ r, r ∈ [chainRowA; chainRowB; chainRowC] →
                        r = chainRowA ∨ r = chainRowB ∨ r = chainRowC).
  { intros r Hr. rewrite !elem_of_cons in Hr.
    destruct Hr as [?|[?|[?|?%elem_of_nil]]]; tauto. }
  split.
  - intros r [-> | [-> | ->]]%Hcases;
      (repeat split; intros x Hx;
       first [discriminate Hx | injection Hx as <-; reflexivity]).
  - apply (bool_decide_unpack _). vm_compute. exact I.
  - intros r x [-> | [-> | ->]]%Hcases [= <-]; (split; [by eexists|]).
    + exists chainRowB. split; [right; left|done].
    + exists chainRowC. split; [right; right; left|done].
  - intros r x [-> | [-> | ->]]%Hcases [= <-]; (split; [by eexists|]).
    + exists chainRowA. split; [left|done].
    + exists chainRowB. split; [right; left|done].
  - exists (λ x, if decide (x = "A") then 0%nat
                 else if decide (x = "B") then 1%nat else 2%nat).
    intros r a x [-> | [-> | ->]]%Hcases [= <-] [= <-]; vm_compute; lia.
Qed.

Lemma middle_row_edit :
  UserEdit (rowsOfDoc (doc chainOfThree)) (rowsOfDoc (doc middleRowDeleted)).
Proof.
  split.
  - intros r Hr. right. exists r. split; [|done].
    change (rowsOfDoc (doc middleRowDeleted)) with [chainRowA; chainRowC] in Hr.
    change (rowsOfDoc (doc chainOfThree)) with [chainRowA; chainRowB; chainRowC].
    rewrite !elem_of_cons in Hr. rewrite !elem_of_cons. tauto.
  - apply (bool_decide_unpack _). vm_compute. exact I.
Qed.

Lemma middle_link_deletion_witness :
  ChainOk (rowsOfDoc (doc chainOfThree))
  ∧ UserEdit (rowsOfDoc (doc chainOfThree)) (rowsOfDoc (doc middleRowDeleted))
  ∧ chainRowA ∈ rowsOfDoc (doc chainOfThree) ∧ rmRowId chainRowA = Some "A"
  ∧ rmLinkedPrev chainRowA = None ∧ rmLinkedNext chainRowA = Some "B"
  ∧ chainRowB ∈ rowsOfDoc (doc chainOfThree) ∧ rmRowId chainRowB = Some "B"
  ∧ rmLinkedNext chainRowB = Some "C"
  ∧ chainRowA ∈ rowsOfDoc (doc middleRowDeleted)
  ∧ ∃ tr,
      cleanupDeletedRowChains sampleSchema chainOfThree middleRowDeleted = Some tr
      ∧ rowCleanupMeta tr = true
      ∧ (∃ r, r ∈ rowsOfDoc (trDoc tr) ∧ rmRowId r = Some "A" ∧ rmLinkedNext r = None)
      ∧ (∀ r, r ∈ rowsOfDoc (trDoc tr) → rmRowId r ≠ Some "C").
Proof.
  assert (HA : chainRowA ∈ rowsOfDoc (doc chainOfThree)) by left.
  assert (HB : chainRowB ∈ rowsOfDoc (doc chainOfThree)) by (right; left).
  assert (HA' : chainRowA ∈ rowsOfDoc (doc middleRowDeleted)) by left.
  repeat (split; [first [exact chain_of_three_ok | exact middle_row_edit
                        | done | reflexivity]|]).
  apply (middle_link_deletion sampleSchema chainOfThree middleRowDeleted
           chainRowA chainRowB chainRowA "A" "B" "C");
    try first [exact chain_of_three_ok | exact middle_row_edit | done | reflexivity].
  intros r Hr. change (rowsOfDoc (doc middleRowDeleted)) with [chainRowA; chainRowC] in Hr.
  rewrite !elem_of_cons in Hr. destruct Hr as [-> | [-> | ?%elem_of_nil]]; done.
Defined.

(** C4, the claim as stated fails: a cell that carries the origin flag
    with spans of one is an origin cell of the data model, and the merge
    over a rectangle that holds it succeeds and rewrites the table. *)
Lemma merge_over_flagged_cell_succeeds :
  cellAt (tableOf false
            [plainRow [plainCell "a" "one"; flaggedCell];
             plainRow [plainCell "c" ""; plainCell "d" "four"]]) 0 1
  = Some flaggedCell
  ∧ rmMergeOrigin flaggedCell = true
  ∧ rmColspan flaggedCell = 1%Z ∧ rmRowspan flaggedCell = 1%Z
  ∧ Merge.mergeInternal sampleSchema flaggedRowSelected
    = Returned true flaggedRowMerged
  ∧ doc flaggedRowMerged ≠ doc flaggedRowSelected.
Proof.
  repeat split; try (vm_compute; reflexivity). intros H. discriminate H.
Qed.

Lemma truthy_nonempty id : id ≠ "" → Js.truthy (Some id) = true.
Proof. by destruct id. Qed.

(** C4 (amended).  On a cell selection of a table of plain rows, a
    merge over a rectangle of one cell, or over a rectangle that holds a
    covered cell (its [rmMergedTo] holds an identifier) or an origin cell
    with a span above one (its [rmMergeOrigin] is set and its [rmRowspan]
    or [rmColspan] is above one), returns false and leaves the state as it
    was. *)
Theorem merge_rejects_single_and_overlap s st ti a b t :
  selection st = CellSelection ti a b →
  tableAt (doc st) ti = Some t →
  onGrid t a b = true →
  (rectWidth (rectBetween a b) = 1%nat ∧ rectHeight (rectBetween a b) = 1%nat)
  ∨ (∃ r c n, inRect (rectBetween a b) r c = true ∧ cellAt t r c = Some n
              ∧ ((∃ id, rmMergedTo n = Some id ∧ id ≠ "")
                 ∨ (rmMergeOrigin n = true
                    ∧ (1 < rmRowspan n ∨ 1 < rmColspan n)%Z))) →
  Merge.mergeInternal s st = Returned false st.
Proof.
  intros Hsel Ht Hg Hcase. unfold Merge.mergeInternal. rewrite Hsel, Ht, Hg. simpl.
  destruct Hcase as [[Hw Hh]|(r & c & n & Hin & Hn & Hm)].
  - rewrite Hw, Hh. by rewrite !bool_decide_eq_true_2.
  - destruct (_ && _); [done|].
    destruct (Merge.collectCells t (rectBetween a b)) as [cells|] eqn:Hc; [|done].
    destruct (collectCells_lookup _ _ _ _ _ Hc Hin) as (n' & Hn' & Hel).
    simplify_eq.
    assert (existsb (λ x, Merge.isCovered x.2 || Merge.isMergedOrigin x.2) cells = true)
      as ->; [|done].
    apply existsb_exists. exists (r, c, n). split; [by apply list_elem_of_In|].
    cbn [snd]. apply orb_true_iff.
    destruct Hm as [(id & Hid & Hne)|[Hflag Hspan]].
    + left. unfold Merge.isCovered. rewrite Hid. by apply truthy_nonempty.
    + right. unfold Merge.isMergedOrigin. rewrite Hflag. cbn [andb].
      apply orb_true_iff.
      destruct Hspan as [Hs|Hs]; [left|right]; by apply bool_decide_eq_true_2.
Qed.

Lemma merge_rejects_single_and_overlap_witness :
  (rectWidth (rectBetween (1, 1)%nat (1, 1)%nat) = 1%nat
   ∧ rectHeight (rectBetween (1, 1)%nat (1, 1)%nat) = 1%nat
   ∧ Merge.mergeInternal sampleSchema singleCellSelected
     = Returned false singleCellSelected)
  ∧ (inRect (rectBetween (0, 0)%nat (0, 1)%nat) 0 1 = true
     ∧ (rmMergedTo <$> (tableAt (doc (firstRowMerged false)) 0 ≫= λ t, cellAt t 0 1))
       = Some (Some "a")
     ∧ Merge.mergeInternal sampleSchema (firstRowMerged false)
       = Returned false (firstRowMerged false)).
Proof.
  split.
  - split; [reflexivity|]. split; [reflexivity|].
    apply (merge_rejects_single_and_overlap sampleSchema singleCellSelected
             0%nat (1, 1)%nat (1, 1)%nat (sampleGrid false)).
    + reflexivity.
    + reflexivity.
    + vm_compute. reflexivity.
    + left. split; reflexivity.
  - split; [vm_compute; reflexivity|]. split; [vm_compute; reflexivity|].
    apply (merge_rejects_single_and_overlap sampleSchema (firstRowMerged false)
             0%nat (0, 0)%nat (0, 1)%nat
             (tableOf false
                [plainRow
                   [mkCell TableCell (Some "a") true None None 2 1
                      [para "one"; para "two"];
                    mkCell TableCell (Some "b") false (Some "a") (Some HideNone) 1 1
                      [para ""]];
                 plainRow [plainCell "c" ""; plainCell "d" "four"]])).
    + reflexivity.
    + reflexivity.
    + vm_compute. reflexivity.
    + right. exists 0%nat, 1%nat,
        (mkCell TableCell (Some "b") false (Some "a") (Some HideNone) 1 1 [para ""]).
      split; [vm_compute; reflexivity|]. split; [vm_compute; reflexivity|].
      left. exists "a". split; [reflexivity|done].
Defined.

(** C8, the claim as stated fails: the merge and the unmerge commands
    rewrite the cells of a locked table, and a paginate step and a
    merge-back step that start in an unlocked table rewrite the
    continuation row they find in a locked table. *)
Lemma locked_table_is_rewritten :
  (locked (sampleGrid true) = true
   ∧ Merge.mergeInternal sampleSchema (firstRowSelected true)
     = Returned true (firstRowMerged true)
   ∧ doc (firstRowMerged true) ≠ doc (firstRowSelected true))
  ∧ (Merge.unmergeInternal sampleSchema (firstRowMerged true)
     = Returned true (firstRowUnmerged true)
     ∧ (locked <$> tableAt (doc (firstRowMerged true)) 0) = Some true
     ∧ doc (firstRowUnmerged true) ≠ doc (firstRowMerged true))
  ∧ (maybePaginateActiveCell sampleSchema lockedContinuationView true sampleIds
     = Dispatch lockedContinuationResult
     ∧ tableAt (doc (state lockedContinuationView)) 1
       = Some (tableOf true [linkedContinuationRow])
     ∧ (locked <$> tableAt (trDoc lockedContinuationResult) 1) = Some true
     ∧ tableAt (trDoc lockedContinuationResult) 1
       ≠ tableAt (doc (state lockedContinuationView)) 1)
  ∧ (maybeMergeBackActiveCell sampleSchema lockedMergeBackView
     = Dispatch lockedMergeBackResult
     ∧ tableAt (doc (state lockedMergeBackView)) 1
       = Some (tableOf true [scenarioRowN; plainRow [plainCell "x" "y"]])
     ∧ (locked <$> tableAt (trDoc lockedMergeBackResult) 1) = Some true
     ∧ tableAt (trDoc lockedMergeBackResult) 1
       ≠ tableAt (doc (state lockedMergeBackView)) 1).
Proof.
  repeat split; try (vm_compute; reflexivity);
    intros H; vm_compute in H; discriminate H.
Qed.

(** C8 (amended).  While the table that holds the cell a paginate step
    or a merge-back step works on is locked, the step dispatches nothing:
    the paginate and the merge-back step on the active cell when the table
    around the selection is locked, and the paginate step on a given cell
    when the table of that cell is locked. *)
Theorem locked_table_row_engine_noop s :
  (∀ v info,
     getSelectionTableContext (state v) = Some info →
     tableLocked (tableNode info) = true →
     (∀ moveSelection ids, maybePaginateActiveCell s v moveSelection ids = NoDispatch)
     ∧ maybeMergeBackActiveCell s v = NoDispatch)
  ∧ (∀ st ctx cellDom ids,
       tableLocked (tableNode ctx) = true →
       paginateCellAtContext s st ctx cellDom ids = NoDispatch).
Proof.
  split.
  - intros v info Hinfo Hl. split.
    + intros. unfold maybePaginateActiveCell. by rewrite Hinfo, Hl.
    + unfold maybeMergeBackActiveCell. by rewrite Hinfo, Hl.
  - intros st ctx cellDom ids Hl. unfold paginateCellAtContext. by rewrite Hl.
Qed.

Lemma locked_table_row_engine_noop_witness :
  getSelectionTableContext (state (overflowView true)) = Some (overflowContext true)
  ∧ tableLocked (tableNode (overflowContext true)) = true
  ∧ (∀ moveSelection ids,
       maybePaginateActiveCell sampleSchema (overflowView true) moveSelection ids
       = NoDispatch)
  ∧ maybeMergeBackActiveCell sampleSchema (overflowView true) = NoDispatch
  ∧ (∀ cellDom ids,
       paginateCellAtContext sampleSchema (state (overflowView true))
         (overflowContext true) cellDom ids = NoDispatch).
Proof.
  split; [reflexivity|]. split; [reflexivity|].
  destruct (locked_table_row_engine_noop sampleSchema) as [Hactive Hcell].
  destruct (Hactive (overflowView true) (overflowContext true) eq_refl eq_refl)
    as [Hp Hm].
  split; [exact Hp|]. split; [exact Hm|].
  intros cellDom ids.
  exact (Hcell (state (overflowView true)) (overflowContext true) cellDom ids eq_refl).
Defined.






(** ** Emptiness of a cell *)

Lemma Block_kids_ind (P : Block → Prop) :
  (∀ n a body, P (BText n a body)) →
  (∀ n, P (BLeaf n)) →
  (∀ n kids, Forall P kids → P (BNode n kids)) →
  ∀ b, P b.
Proof.
  intros Ht Hl Hn. fix IH 1. intros [n a body|n|n kids].
  - apply Ht.
  - apply Hl.
  - apply Hn. induction kids as [|k kids IHk]; constructor; [apply IH|apply IHk].
Qed.

Lemma forallb_app {A} (f : A → bool) l1 l2 :
  forallb f (l1 ++ l2) = forallb f l1 && forallb f l2.
Proof. induction l1 as [|x l1 IH]; [done|]. cbn. by rewrite IH, andb_assoc. Qed.

Lemma existsb_forallb {A} (f : A → bool) l :
  negb (existsb f l) = forallb (λ x, negb (f x)) l.
Proof. induction l as [|x l IH]; [done|]. cbn. by rewrite negb_orb, IH. Qed.

(** The scan of [isVisuallyEmptyCell] on one block, through the nodes
    it visits. *)
Lemma blockNonTrivial_nodes b :
  negb (blockNonTrivial b) = forallb isBreakOrParent (blockNodes b).
Proof.
  induction b as [n a body|n|n kids IH] using Block_kids_ind.
  - cbn. induction body as [|i body IHb]; [done|].
    cbn. rewrite negb_orb, IHb. destruct i; cbn; by rewrite ?negb_involutive.
  - cbn. by rewrite andb_true_r, negb_involutive.
  - cbn [blockNonTrivial blockNodes forallb isBreakOrParent]. cbn [andb].
    induction IH as [|k kids Hk _ IHk]; [done|].
    cbn. by rewrite negb_orb, forallb_app, Hk, IHk.
Qed.

Lemma cellNonTrivial_nodes c :
  negb (existsb blockNonTrivial (cellContent c)) = forallb isBreakOrParent (cellNodes c).
Proof.
  unfold cellNodes. induction (cellContent c) as [|b bs IH]; [done|].
  cbn. by rewrite negb_orb, forallb_app, blockNonTrivial_nodes, IH.
Qed.

Lemma string_app_empty (s1 s2 : string) : s1 = "" → s2 = "" → s1 +:+ s2 = "".
Proof. by intros -> ->. Qed.

(** A block without text nodes has no text. *)
Lemma textContent_no_text b :
  forallb isBreakOrParent (blockNodes b) = true → textContent b = "".
Proof.
  induction b as [n a body|n|n kids IH] using Block_kids_ind.
  - cbn. induction body as [|i body IHb]; [done|].
    cbn. intros [Hi Hb]%andb_true_iff. destruct i as [s|l]; [done|].
    cbn. by apply IHb.
  - done.
  - cbn [blockNodes forallb isBreakOrParent textContent]. cbn [andb].
    induction IH as [|k kids Hk _ IHk]; [done|].
    cbn. rewrite forallb_app. intros [H1 H2]%andb_true_iff.
    apply string_app_empty; [by apply Hk|by apply IHk].
Qed.

(** [isVisuallyEmptyCell] holds exactly of the cells in which the scan
    meets no text node and no leaf other than a hard break; the test of
    the trimmed text decides nothing. *)
Lemma isVisuallyEmptyCell_nodes c :
  isVisuallyEmptyCell c = forallb isBreakOrParent (cellNodes c).
Proof.
  unfold isVisuallyEmptyCell. rewrite cellNonTrivial_nodes.
  destruct (forallb isBreakOrParent (cellNodes c)) eqn:Hn; [|by case_match].
  assert (blocksText (cellContent c) = "") as ->; [|done].
  unfold cellNodes in Hn. induction (cellContent c) as [|b bs IH]; [done|].
  cbn in Hn. rewrite forallb_app in Hn. apply andb_true_iff in Hn as [H1 H2].
  cbn. apply string_app_empty; [by apply textContent_no_text|by apply IH].
Qed.

Lemma inlinesSize_0 body : inlinesSize body = 0%nat → inlinesText body = "".
Proof.
  unfold inlinesSize. induction body as [|i body IH]; [done|].
  cbn. intros H. destruct i as [s|l]; cbn in H; [|lia].
  destruct s; [|cbn in H; lia]. cbn. apply IH. cbn in H. lia.
Qed.

Lemma nodeSize_positive b : (0 < nodeSize b)%nat.
Proof. destruct b; cbn; lia. Qed.

(** A block without content has no text. *)
Lemma blockContentSize_0 b : blockContentSize b = 0%nat → textContent b = "".
Proof.
  destruct b as [n a body|n|n kids]; cbn.
  - apply inlinesSize_0.
  - done.
  - destruct kids as [|k kids]; [done|]. cbn.
    pose proof (nodeSize_positive k). lia.
Qed.

(** [meaningfulBlocksFromCell] drops the paragraphs without content and
    keeps every other block, in order. *)
Lemma meaningfulBlocksFromCell_filter c :
  meaningfulBlocksFromCell c = filter (λ b, ¬ isEmptyParagraph b) (cellContent c).
Proof.
  unfold meaningfulBlocksFromCell. apply list_filter_iff. intros b.
  unfold isTrivialParagraph, isEmptyParagraph. split.
  - intros H [Hn Hs]. rewrite (bool_decide_eq_true_2 _ Hn) in H.
    rewrite (bool_decide_eq_true_2 _ Hs) in H.
    rewrite (blockContentSize_0 b Hs) in H. done.
  - intros H. apply not_true_is_false. intros Ht. apply H.
    apply andb_true_iff in Ht as [[H1 _]%andb_true_iff H3].
    by apply bool_decide_eq_true in H1, H3.
Qed.

(** C3, the code departs from the claim: two cells that hold whitespace
    only are visually empty in the words of the specification, yet the
    emptiness test of the merge takes their text nodes for content, and the
    merged origin holds their two whitespace paragraphs instead of one
    empty paragraph. *)
Lemma merge_keeps_whitespace_cells :
  specVisuallyEmpty (whitespaceCell "a") = true
  ∧ specVisuallyEmpty (whitespaceCell "b") = true
  ∧ isVisuallyEmptyCell (whitespaceCell "a") = false
  ∧ isVisuallyEmptyCell (whitespaceCell "b") = false
  ∧ Merge.mergeInternal sampleSchema whitespaceRowSelected
    = Returned true whitespaceRowMerged
  ∧ (cellContent <$> (tableAt (doc whitespaceRowMerged) 0 ≫= λ t, cellAt t 0 0))
    = Some [para " "; para " "]
  ∧ [para " "; para " "] ≠ [emptyParagraph (defaultAttrs sampleSchema)].
Proof.
  repeat split; try (vm_compute; reflexivity). intros H. discriminate H.
Qed.

Lemma list_bind_ext {A B} (f g : A → list B) (l : list A) :
  (∀ x, f x = g x) → l ≫= f = l ≫= g.
Proof.
  intros H. induction l as [|x l IH]; [done|]. csimpl. by rewrite H, IH.
Qed.

(** The merge as the code performs it.  After a successful merge over a
    rectangle (not of one cell only): the top-left cell is the origin, with
    the width and height of the rectangle as its spans, and its content is,
    cell by cell in row-major order (which starts with the origin), the
    blocks of the cells that hold a text node or a leaf other than a hard
    break, without their paragraphs without content, or one empty paragraph
    when there is no such block; every other cell of the rectangle is
    covered, points at the identifier of the origin, has spans of one and
    one empty paragraph as content, and is hidden unless it is in the row
    of the origin; the cells outside stay as they were. *)
Theorem merge_postcondition s st st' ti a b t :
  selection st = CellSelection ti a b →
  tableAt (doc st) ti = Some t →
  Merge.mergeInternal s st = Returned true st' →
  let rc := rectBetween a b in
  ∃ t' origin originId,
    tableAt (doc st') ti = Some t'
    ∧ ¬ (rectWidth rc = 1%nat ∧ rectHeight rc = 1%nat)
    ∧ cellAt t (top rc) (left rc) = Some origin
    ∧ rmCellId origin = Some originId
    ∧ (∃ o', cellAt t' (top rc) (left rc) = Some o'
             ∧ rmMergeOrigin o' = true
             ∧ rmMergedTo o' = None
             ∧ rmCellId o' = Some originId
             ∧ rmColspan o' = Z.of_nat (rectWidth rc)
             ∧ rmRowspan o' = Z.of_nat (rectHeight rc)
             ∧ cellContent o'
               = let blocks :=
                   coords rc ≫= λ p,
                     match cellAt t p.1 p.2 with
                     | Some n =>
                         if forallb isBreakOrParent (cellNodes n) then []
                         else filter (λ b, ¬ isEmptyParagraph b) (cellContent n)
                     | None => []
                     end in
                 match blocks with
                 | [] => [emptyParagraph (defaultAttrs s)]
                 | _ => blocks
                 end)
    ∧ (∀ r c, inRect rc r c = true → (r, c) ≠ (top rc, left rc) →
         ∃ n n', cellAt t r c = Some n ∧ cellAt t' r c = Some n'
                 ∧ rmCellId n' = rmCellId n
                 ∧ rmMergeOrigin n' = false
                 ∧ rmMergedTo n' = Some originId
                 ∧ rmColspan n' = 1%Z ∧ rmRowspan n' = 1%Z
                 ∧ cellContent n' = [emptyParagraph (defaultAttrs s)]
                 ∧ rmHideMode n'
                   = Some (if decide (r = top rc) then HideNone else HideHidden))
    ∧ (∀ r c, inRect rc r c = false → cellAt t' r c = cellAt t r c).
Proof.
  intros Hsel Ht Hm rc.
  apply mergeInternal_true in Hm
    as (ti' & a' & b' & t0 & cells & i & origin & originId & empty
        & Hsel' & Ht' & Hg & H11 & Hc & Hov & Hf & Hid & Hne & Hem & ->).
  rewrite Hsel in Hsel'. injection Hsel' as <- <- <-.
  rewrite Ht in Ht'. injection Ht' as <-.
  pose proof (rectBetween_nonempty a b) as [Hw Hh].
  fold rc in H11, Hc, Hf, Hw, Hh |- *. clearbody rc.
  unfold Merge.emptyCellContent in Hem.
  destruct (hasParagraph s); [|done]. injection Hem as <-.
  apply list_find_Some in Hf as Hf'. destruct Hf' as (Hi & _ & _).
  apply list_elem_of_lookup_2 in Hi.
  destruct (collectCells_elem _ _ _ _ _ _ Hc Hi) as [Horigin Hin0].
  eexists _, origin, originId. simpl.
  rewrite tableAt_updateTable, Ht. simpl.
  split; [reflexivity|]. split.
  { intros [Hw1 Hh1]. rewrite Hw1, Hh1 in H11. by rewrite !bool_decide_eq_true_2 in H11. }
  split; [done|]. split; [done|]. split; [|split].
  - rewrite cellAt_mapTableCells, Horigin. simpl.
    unfold Merge.mergeRewrite. rewrite Hin0, decide_True by done.
    eexists. split; [reflexivity|]. simpl. repeat (split; [done|]).
    rewrite (mergedBlocksOf_coords t rc cells i origin Hw Hh Hc Hf).
    rewrite (list_bind_ext _
               (λ p, match cellAt t p.1 p.2 with
                     | Some n =>
                         if forallb isBreakOrParent (cellNodes n) then []
                         else filter (λ b, ¬ isEmptyParagraph b) (cellContent n)
                     | None => []
                     end)).
    + destruct (coords rc ≫= _); done.
    + intros p. destruct (cellAt t p.1 p.2) as [n|]; [|done].
      by rewrite isVisuallyEmptyCell_nodes, meaningfulBlocksFromCell_filter.
  - intros r c Hin Hne'.
    destruct (collectCells_lookup _ _ _ _ _ Hc Hin) as (n & Hn & _).
    exists n. rewrite cellAt_mapTableCells, Hn. simpl.
    unfold Merge.mergeRewrite. rewrite Hin.
    rewrite decide_False by (intros [-> ->]; done).
    eexists. split; [done|]. split; [reflexivity|]. done.
  - intros r c Hout. rewrite cellAt_mapTableCells.
    unfold Merge.mergeRewrite. rewrite Hout. by destruct (cellAt t r c).
Qed.

Lemma merge_postcondition_witness :
  Merge.mergeInternal sampleSchema mixedGridSelected = Returned true mixedGridMerged
  ∧ ∃ t' origin originId,
    tableAt (doc mixedGridMerged) 0%nat = Some t'
    ∧ ¬ (rectWidth (rectBetween (0, 0)%nat (1, 1)%nat) = 1%nat
         ∧ rectHeight (rectBetween (0, 0)%nat (1, 1)%nat) = 1%nat)
    ∧ cellAt mixedGrid 0%nat 0%nat = Some origin
    ∧ rmCellId origin = Some originId
    ∧ (∃ o', cellAt t' 0%nat 0%nat = Some o'
             ∧ rmMergeOrigin o' = true
             ∧ rmMergedTo o' = None
             ∧ rmCellId o' = Some originId
             ∧ rmColspan o' = 2%Z
             ∧ rmRowspan o' = 2%Z
             ∧ cellContent o' = [para "one"; para "two"; para " "])
    ∧ (∀ r c, inRect (rectBetween (0, 0)%nat (1, 1)%nat) r c = true →
         (r, c) ≠ (0, 0)%nat →
         ∃ n n', cellAt mixedGrid r c = Some n ∧ cellAt t' r c = Some n'
                 ∧ rmCellId n' = rmCellId n
                 ∧ rmMergeOrigin n' = false
                 ∧ rmMergedTo n' = Some originId
                 ∧ rmColspan n' = 1%Z ∧ rmRowspan n' = 1%Z
                 ∧ cellContent n' = [emptyParagraph (defaultAttrs sampleSchema)]
                 ∧ rmHideMode n'
                   = Some (if decide (r = 0%nat) then HideNone else HideHidden))
    ∧ (∀ r c, inRect (rectBetween (0, 0)%nat (1, 1)%nat) r c = false →
         cellAt t' r c = cellAt mixedGrid r c).
Proof.
  split; [vm_compute; reflexivity|].
  apply (merge_postcondition sampleSchema mixedGridSelected mixedGridMerged
           0%nat (0, 0)%nat (1, 1)%nat mixedGrid).
  - reflexivity.
  - reflexivity.
  - vm_compute. reflexivity.
Defined.

(** ** The commands surface *)

















(** ** Merged cells and later merges *)

Lemma mergeInternal_overlap s st ti a b t r c n :
  selection st = CellSelection ti a b →
  tableAt (doc st) ti = Some t →
  onGrid t a b = true →
  inRect (rectBetween a b) r c = true →
  cellAt t r c = Some n →
  (Merge.isCovered n || Merge.isMergedOrigin n) = true →
  Merge.mergeInternal s st = Returned false st.
Proof.
  intros Hsel Ht Hg Hin Hn Hm. unfold Merge.mergeInternal. rewrite Hsel, Ht, Hg. simpl.
  destruct (_ && _); [done|].
  destruct (Merge.collectCells t (rectBetween a b)) as [cells|] eqn:Hc; [|done].
  destruct (collectCells_lookup _ _ _ _ _ Hc Hin) as (n' & Hn' & Hel).
  simplify_eq.
  assert (existsb (λ x, Merge.isCovered x.2 || Merge.isMergedOrigin x.2) cells = true)
    as ->; [|done].
  apply existsb_exists. exists (r, c, n). split; [by apply list_elem_of_In|done].
Qed.

(** Merges do not overlap.  After a successful merge, a merge over a
    selection of the same table whose rectangle holds a cell of the merged
    rectangle returns false and changes nothing. *)
Theorem merged_rectangle_blocks_merges s st st' ti a b a' b' r c :
  selection st = CellSelection ti a b →
  Merge.mergeInternal s st = Returned true st' →
  inRect (rectBetween a b) r c = true →
  inRect (rectBetween a' b') r c = true →
  onGridState (mkState (doc st') (CellSelection ti a' b')) = true →
  Merge.mergeInternal s (mkState (doc st') (CellSelection ti a' b'))
  = Returned false (mkState (doc st') (CellSelection ti a' b')).
Proof.
  intros Hsel Hm Hin Hin' Hg'.
  apply mergeInternal_true in Hm
    as (ti0 & a0 & b0 & t & cells & i & origin & originId & empty
        & Hsel' & Ht & Hg & H11 & Hc & Hov & Hf & Hid & Hne & Hem & ->).
  rewrite Hsel in Hsel'. injection Hsel' as <- <- <-.
  pose proof (rectBetween_nonempty a b) as [Hw Hh].
  set (rc := rectBetween a b) in *.
  destruct (collectCells_lookup _ _ _ _ _ Hc Hin) as (n & Hn & _).
  unfold onGridState in Hg'. cbn [selection doc] in Hg'.
  rewrite tableAt_updateTable, Ht in Hg'. cbn in Hg'.
  eapply (mergeInternal_overlap _ _ ti a' b' _ r c).
  - done.
  - cbn [doc]. by rewrite tableAt_updateTable, Ht.
  - done.
  - done.
  - by rewrite cellAt_mapTableCells, Hn.
  - unfold Merge.mergeRewrite. rewrite Hin.
    destruct (decide (r = top rc ∧ c = left rc)) as [_|_].
    + apply orb_true_iff. right. unfold Merge.isMergedOrigin. cbn.
      apply andb_false_iff in H11.
      apply orb_true_iff.
      destruct H11 as [H1|H1]; apply bool_decide_eq_false in H1;
        [right|left]; apply bool_decide_eq_true.
      all: unfold rc, rectWidth, rectHeight, rectBetween in *; cbn in *; lia.
    + apply orb_true_iff. left. unfold Merge.isCovered. cbn. by rewrite Hne.
Qed.

Lemma merged_rectangle_blocks_merges_witness :
  Merge.mergeInternal sampleSchema (firstRowSelected false)
  = Returned true (firstRowMerged false)
  ∧ inRect (rectBetween (0, 0) (0, 1))%nat 0 1 = true
  ∧ inRect (rectBetween (0, 1) (1, 1))%nat 0 1 = true
  ∧ Merge.mergeInternal sampleSchema
      (mkState (doc (firstRowMerged false)) (CellSelection 0 (0, 1) (1, 1))%nat)
    = Returned false
        (mkState (doc (firstRowMerged false)) (CellSelection 0 (0, 1) (1, 1))%nat).
Proof.
  split; [vm_compute; reflexivity|]. split; [reflexivity|]. split; [reflexivity|].
  apply (merged_rectangle_blocks_merges sampleSchema (firstRowSelected false)
           (firstRowMerged false) 0%nat (0, 0)%nat (0, 1)%nat (0, 1)%nat (1, 1)%nat
           0%nat 1%nat).
  - reflexivity.
  - vm_compute. reflexivity.
  - reflexivity.
  - reflexivity.
  - vm_compute. reflexivity.
Defined.

(** ** Emptiness tests of the row engine *)

Lemma trimEnd_cons_nonspace a s :
  Js.isSpace a = false → Js.trimEnd (String a s) ≠ EmptyString.
Proof. intros Ha. cbn [Js.trimEnd]. destruct (Js.trimEnd s); by rewrite ?Ha. Qed.

Lemma isBlank_cons a s : isBlank (String a s) = Js.isSpace a && isBlank s.
Proof.
  unfold isBlank, Js.trim. cbn [Js.trimStart].
  destruct (Js.isSpace a) eqn:Ha; [done|]. cbn [andb].
  pose proof (trimEnd_cons_nonspace a s Ha). by destruct (Js.trimEnd (String a s)).
Qed.

Lemma isBlank_app s1 s2 : isBlank (s1 +:+ s2) = isBlank s1 && isBlank s2.
Proof.
  induction s1 as [|a s1 IH]; [done|].
  change (String a s1 +:+ s2) with (String a (s1 +:+ s2)).
  by rewrite !isBlank_cons, IH, andb_assoc.
Qed.

Lemma isBlank_blocksText bs :
  forallb (λ b, isBlank (textContent b)) bs = true → isBlank (blocksText bs) = true.
Proof.
  induction bs as [|b bs IH]; [done|]. cbn [forallb]. intros [Hb Hbs]%andb_true_iff.
  unfold blocksText. cbn [foldr]. fold (blocksText bs).
  by rewrite isBlank_app, Hb, IH.
Qed.

Lemma inlinesSize_no_leaf body : inlinesSize body = 0%nat → existsb isInlineLeaf body = false.
Proof.
  unfold inlinesSize. induction body as [|i body IH]; [done|].
  cbn. destruct i as [s|n]; cbn; [|lia]. intros H. apply IH. lia.
Qed.

(** The two emptiness tests of the row engine agree: a cell is completely
    empty exactly if it has no meaningful block, and then every block of
    it is a text block with blank text and no inline node but text. *)
Theorem completely_empty_iff_no_meaningful_block c :
  (isCellCompletelyEmpty c = true ↔ getFirstMeaningfulBlockIndex c = None)
  ∧ isCellCompletelyEmpty c = allChildrenAreEmptyTextblocks c.
Proof.
  assert (Hall : isCellCompletelyEmpty c = allChildrenAreEmptyTextblocks c).
  { unfold isCellCompletelyEmpty, allChildrenAreEmptyTextblocks, isEmptyPlaceholderCell.
    destruct (cellContent c) as [|b [|b' bs]] eqn:Hc.
    - done.
    - cbn [length]. rewrite bool_decide_eq_false_2 by done.
      rewrite bool_decide_eq_true_2 by done. cbn [andb forallb].
      destruct (isTextblock b) eqn:Ht; [|by rewrite andb_false_r].
      cbn [andb]. unfold blocksText. cbn [foldr]. rewrite string_app_nil_r.
      destruct (bool_decide (blockContentSize b = 0%nat)) eqn:Hs; cbn [andb].
      + apply bool_decide_eq_true in Hs. destruct b as [n at' body| |]; try done.
        cbn in Hs. cbn [hasInlineNonText textContent].
        rewrite (inlinesSize_no_leaf body Hs). cbn [negb].
        destruct (Js.isEmpty (inlinesText body)) eqn:He.
        * destruct (inlinesText body); [done|discriminate He].
        * by destruct (isBlank _).
      + by destruct (isBlank _), (hasInlineNonText _).
    - cbn [length]. rewrite !bool_decide_eq_false_2 by done. cbn [andb].
      destruct (forallb _ (b :: b' :: bs)) eqn:Hf; [|by rewrite andb_false_r].
      rewrite andb_true_r. apply isBlank_blocksText.
      apply forallb_forall. intros x Hx.
      apply (proj1 (forallb_forall _ _) Hf) in Hx.
      by apply andb_true_iff in Hx as [[_ ?]%andb_true_iff _]. }
  split; [|done]. rewrite Hall. unfold allChildrenAreEmptyTextblocks, getFirstMeaningfulBlockIndex.
  split.
  - intros Hf. destruct (list_find _ (cellContent c)) as [[i b]|] eqn:Hfind; [|done].
    apply list_find_Some in Hfind as (Hi & Hm & _).
    apply list_elem_of_lookup_2, list_elem_of_In in Hi.
    apply (proj1 (forallb_forall _ _) Hf) in Hi.
    unfold isMeaningfulBlock in Hm.
    apply andb_true_iff in Hi as [[H1 H2]%andb_true_iff H3].
    rewrite H1, H2 in Hm. cbn in Hm. rewrite Hm in H3. done.
  - intros Hn. destruct (list_find _ (cellContent c)) as [[i b]|] eqn:Hfind; [done|].
    apply list_find_None in Hfind. rewrite Forall_forall in Hfind.
    apply forallb_forall. intros x Hx%list_elem_of_In.
    specialize (Hfind x Hx). unfold isMeaningfulBlock in Hfind.
    destruct (isTextblock x); [|done]. destruct (isBlank (textContent x)); [|done].
    cbn in *. by destruct (hasInlineNonText x).
Qed.

(** ** What the cleanup removes *)

(** After an edit of a document with well-formed chains, the cleanup
    removes exactly the rows downstream of a row the edit deleted: a row
    identifier is left after the cleanup exactly if the edit kept it and it
    is not downstream of a deleted identifier.  Rows without identifier
    stay, and every row that is left is a row the edit left, with its
    identifier, its predecessor and its cells. *)
Theorem cleanup_removes_downstream s oldState newState :
  ChainOk (rowsOfDoc (doc oldState)) →
  UserEdit (rowsOfDoc (doc oldState)) (rowsOfDoc (doc newState)) →
  let O := rowsOfDoc (doc oldState) in
  let N := rowsOfDoc (doc newState) in
  let after :=
    rowsOfDoc (match cleanupDeletedRowChains s oldState newState with
               | Some tr => trDoc tr
               | None => doc newState
               end) in
  (∀ x, (∃ r, r ∈ after ∧ rmRowId r = Some x)
        ↔ (∃ r, r ∈ N ∧ rmRowId r = Some x)
          ∧ ¬ ∃ d, (∃ r, r ∈ O ∧ rmRowId r = Some d)
                   ∧ (∀ r, r ∈ N → rmRowId r ≠ Some d)
                   ∧ Downstream O d x)
  ∧ (∀ r, r ∈ N → rmRowId r = None → r ∈ after)
  ∧ (∀ r', r' ∈ after →
       ∃ r, r ∈ N ∧ rmRowId r' = rmRowId r ∧ rmLinkedPrev r' = rmLinkedPrev r
            ∧ rowCells r' = rowCells r).
Proof.
  intros HO HE O N after.
  destruct (cleanupDeletedRowChains_rows s oldState newState) as [Hrows _].
  { intros r Hr. by apply (new_keys O N HO HE). }
  { by destruct HE. }
  pose proof (markDeleted_fold (collectRowsById (doc oldState))
                (collectRowsById (doc newState))
                (deletedIdsOf (collectRowsById (doc oldState))
                   (collectRowsById (doc newState)))) as HM.
  destruct (foldl _ _ _) as [R C]. cbn [fst snd] in *.
  rewrite !collectRowsById_rows in HM. fold O N in HM, Hrows.
  destruct HM as (Ma & Mb & Mc & Md & Me).
  fold after in Hrows.
  destruct (chain_acyclic _ HO) as [rank Hrank].
  set (ds := deletedIdsOf (rowsById O) (rowsById N)) in *.
  assert (Hds : ∀ d, d ∈ ds ↔ (∃ r, r ∈ O ∧ rmRowId r = Some d)
                              ∧ (∀ r, r ∈ N → rmRowId r ≠ Some d)).
  { intros d. unfold ds. rewrite (deleted_iff O N HO). split.
    - intros [Hd Hhas]. split; [done|]. intros r Hr Hid.
      assert (mapHas d (rowsById N) = true); [|congruence].
      apply (new_has O N HO HE). by exists r.
    - intros [Hd Hgone]. split; [done|].
      destruct (mapHas d (rowsById N)) eqn:Hhas; [|done].
      apply (new_has O N HO HE) in Hhas as (r & Hr & Hid). by destruct (Hgone r Hr). }
  assert (HR1 : ∀ n x, rank x = n → x ∈ R → ∃ d, d ∈ ds ∧ Downstream O d x).
  { induction n as [n IH] using lt_wf_ind. intros x Hn Hx.
    destruct (Mc x Hx) as (a & Hnext & Ha).
    apply (old_next O HO) in Hnext as (ra & Hra & Hida & Hnx).
    destruct Ha as [Ha|Ha].
    - exists a. split; [done|]. by eapply down_next.
    - pose proof (Hrank ra a x Hra Hida Hnx) as Hlt.
      destruct (IH (rank a) ltac:(lia) a eq_refl Ha) as (d & Hd & Hdown).
      exists d. split; [done|]. by eapply down_step. }
  assert (HR2 : ∀ d x, d ∈ ds → Downstream O d x → x ∈ R).
  { intros d x Hd Hdown. induction Hdown as [r x Hr Hid Hn|y r x _ IH Hr Hid Hn].
    - apply (Mb d x Hd). apply (old_next O HO). by exists r.
    - apply (Ma y x IH). apply (old_next O HO). by exists r. }
  assert (Hkeep : ∀ r, r ∈ N →
            rowWillBeDeleted R r = false
            ↔ ∀ x, rmRowId r = Some x → x ∉ R).
  { intros r Hr. unfold rowWillBeDeleted. rewrite (new_keys O N HO HE) by done.
    destruct (rmRowId r) as [x|]; [|by split].
    rewrite bool_decide_eq_false. split; [by intros H ? [= <-]|by intros H; apply H]. }
  rewrite Hrows. unfold cleanRows.
  set (g := λ r, match rmRowId r with
                 | Some x => if bool_decide (x ∈ C) then setLinkedNext None r else r
                 | None => r
                 end).
  assert (Hg : ∀ r, rmRowId (g r) = rmRowId r ∧ rmLinkedPrev (g r) = rmLinkedPrev r
                    ∧ rowCells (g r) = rowCells r).
  { intros r. unfold g. destruct (rmRowId r) as [x|] eqn:Hx; [|by rewrite ?Hx].
    case_bool_decide; by rewrite ?Hx. }
  split; [|split].
  - intros x. split.
    + intros (r' & (r & -> & [Hk Hr]%list_elem_of_filter)%list_elem_of_fmap & Hid).
      destruct (Hg r) as (Hgi & _). rewrite Hgi in Hid.
      split; [by exists r|]. intros (d & Hd1 & Hd2 & Hdown).
      apply (proj1 (Hkeep r Hr) Hk x Hid).
      apply (HR2 d); [|done]. by apply Hds.
    + intros [(r & Hr & Hid) Hnot]. exists (g r). split.
      * apply list_elem_of_fmap. exists r. split; [done|].
        apply list_elem_of_filter. split; [|done]. apply (proj2 (Hkeep r Hr)).
        intros y Hy Hin. rewrite Hid in Hy. injection Hy as <-.
        destruct (HR1 (rank x) x eq_refl Hin) as (d & Hd & Hdown).
        apply Hnot. exists d. apply Hds in Hd as [Hd1 Hd2]. done.
      * by destruct (Hg r) as (-> & _).
  - intros r Hr Hid. apply list_elem_of_fmap. exists r. split.
    + unfold g. by rewrite Hid.
    + apply list_elem_of_filter. split; [|done]. apply (proj2 (Hkeep r Hr)).
      intros x Hx. congruence.
  - intros r' (r & -> & [_ Hr]%list_elem_of_filter)%list_elem_of_fmap.
    exists r. split; [done|]. apply Hg.
Qed.

Lemma cleanup_removes_downstream_witness :
  ChainOk (rowsOfDoc (doc cascadeOld))
  ∧ UserEdit (rowsOfDoc (doc cascadeOld)) (rowsOfDoc (doc cascadeNew))
  ∧ (omap rmRowId
       (rowsOfDoc (match cleanupDeletedRowChains sampleSchema cascadeOld cascadeNew with
                   | Some tr => trDoc tr
                   | None => doc cascadeNew
                   end))
     = ["A"; "E"; "F"])
  ∧ (let O := rowsOfDoc (doc cascadeOld) in
     let N := rowsOfDoc (doc cascadeNew) in
     let after :=
       rowsOfDoc (match cleanupDeletedRowChains sampleSchema cascadeOld cascadeNew with
                  | Some tr => trDoc tr
                  | None => doc cascadeNew
                  end) in
     (∀ x, (∃ r, r ∈ after ∧ rmRowId r = Some x)
           ↔ (∃ r, r ∈ N ∧ rmRowId r = Some x)
             ∧ ¬ ∃ d, (∃ r, r ∈ O ∧ rmRowId r = Some d)
                      ∧ (∀ r, r ∈ N → rmRowId r ≠ Some d)
                      ∧ Downstream O d x)
     ∧ (∀ r, r ∈ N → rmRowId r = None → r ∈ after)
     ∧ (∀ r', r' ∈ after →
          ∃ r, r ∈ N ∧ rmRowId r' = rmRowId r ∧ rmLinkedPrev r' = rmLinkedPrev r
               ∧ rowCells r' = rowCells r)).
Proof.
  assert (Hok : ChainOk (rowsOfDoc (doc cascadeOld))).
  { apply (chainCheck_ok (rankIn ["A"; "B"; "C"; "D"; "E"; "F"])).
    apply (bool_decide_unpack _). vm_compute. exact I. }
  assert (Hedit : UserEdit (rowsOfDoc (doc cascadeOld)) (rowsOfDoc (doc cascadeNew))).
  { split.
    - intros r Hr. right. exists r. split; [|done].
      change (rowsOfDoc (doc cascadeNew)) with (delete 1%nat cascadeRows) in Hr.
      change (rowsOfDoc (doc cascadeOld)) with cascadeRows.
      unfold cascadeRows in *. cbn [delete list_delete] in Hr.
      rewrite !elem_of_cons in Hr. rewrite !elem_of_cons. tauto.
    - apply (bool_decide_unpack _). vm_compute. exact I. }
  split; [exact Hok|]. split; [exact Hedit|]. split; [vm_compute; reflexivity|].
  exact (cleanup_removes_downstream sampleSchema cascadeOld cascadeNew Hok Hedit).
Defined.

(** ** The two steps of the row engine on one view *)

(** On one view at most one of the two steps on the active cell
    dispatches: the paginate step needs the active cell to overflow, the
    merge-back step needs it not to.  When one dispatches, the other
    dispatches nothing. *)
Theorem paginate_and_merge_back_exclusive s v :
  (∀ moveSelection ids tr,
     maybePaginateActiveCell s v moveSelection ids = Dispatch tr →
     maybeMergeBackActiveCell s v = NoDispatch)
  ∧ (∀ tr,
       maybeMergeBackActiveCell s v = Dispatch tr →
       ∀ moveSelection ids, maybePaginateActiveCell s v moveSelection ids = NoDispatch).
Proof.
  split.
  - intros moveSelection ids tr. unfold maybePaginateActiveCell, maybeMergeBackActiveCell.
    destruct (getSelectionTableContext (state v)) as [info|]; [|done].
    destruct (tableLocked (tableNode info)); [done|].
    destruct (activeCellDom v) as [cellDom|]; [|done].
    destruct (isOverflowing cellDom); [|done]. intros _.
    by repeat case_match.
  - intros tr H moveSelection ids. revert H.
    unfold maybePaginateActiveCell, maybeMergeBackActiveCell.
    destruct (getSelectionTableContext (state v)) as [info|]; [|done].
    destruct (tableLocked (tableNode info)); [done|].
    destruct (activeCellDom v) as [cellDom|]; [|done].
    destruct (isOverflowing cellDom); [|done].
    by repeat case_match.
Qed.

Lemma paginate_and_merge_back_exclusive_witness :
  (maybePaginateActiveCell sampleSchema (overflowView false) true sampleIds
   = Dispatch overflowResult
   ∧ maybeMergeBackActiveCell sampleSchema (overflowView false) = NoDispatch)
  ∧ (maybeMergeBackActiveCell sampleSchema scenarioView = Dispatch scenarioResult
     ∧ ∀ moveSelection ids,
         maybePaginateActiveCell sampleSchema scenarioView moveSelection ids = NoDispatch).
Proof.
  split.
  - split; [vm_compute; reflexivity|].
    apply (proj1 (paginate_and_merge_back_exclusive sampleSchema (overflowView false))
             true sampleIds overflowResult).
    vm_compute. reflexivity.
  - split; [vm_compute; reflexivity|].
    apply (proj2 (paginate_and_merge_back_exclusive sampleSchema scenarioView)
             scenarioResult).
    vm_compute. reflexivity.
Defined.

(** ** Toggling a merge *)



(** ** The emptiness test of the merge *)

(** What the emptiness test of the merge and its choice of blocks come
    to.  A cell is visually empty exactly if the scan of its content meets
    no text node and no leaf other than a hard break: the test of the
    trimmed text never decides, so a cell with whitespace text is not
    empty.  The meaningful blocks of a cell are its blocks without the
    paragraphs that have no content: the test of their trimmed text never
    decides either. *)
Theorem visually_empty_by_nodes c :
  isVisuallyEmptyCell c = forallb isBreakOrParent (cellNodes c)
  ∧ meaningfulBlocksFromCell c = filter (λ b, ¬ isEmptyParagraph b) (cellContent c).
Proof.
  split; [apply isVisuallyEmptyCell_nodes|apply meaningfulBlocksFromCell_filter].
Qed.
